(** * Sheet export normalisation: a shallow embedding

    The repository holds three generations of one build script.  Each
    downloads seven spreadsheet tabs, turns every tab into a sequence of
    sparse records and writes one aggregated snapshot:

    - [Csv]    : the CSV export variant (parseCSV, parseCSVRow);
    - [Legacy] : the first JSON variant (every labelled column is copied);
    - [Gviz]   : the current script, scripts/build-report-data.ts, with the
                 first-column filter and the run-length cut-off;
    - [Assembler] : the main function of the current script.

    Strings are sequences of 8-bit code units (the Latin-1 range of the
    UTF-16 code units a JavaScript string is made of).  A JavaScript object
    used as a record is a finite map from property names to values. *)

From Stdlib Require Import ZArith Ascii.
From stdpp Require Import gmap strings list fin_maps pretty.

(* ===================================================================== *)
(** * JavaScript preliminaries                                            *)
(* ===================================================================== *)

Module Js.

(** The quotation mark, code unit 34. *)
Definition dquote : ascii := "034"%char.
Definition comma : ascii := ","%char.
(** Line feed and carriage return, code units 10 and 13. *)
Definition LF : ascii := "010"%char.
Definition CR : ascii := "013"%char.

(** [s += char] *)
Definition push_char (s : string) (char : ascii) : string :=
  s +:+ String char EmptyString.

(** White space and line terminators, as String.prototype.trim sees them,
    among the code units below 256: TAB, LF, VT, FF, CR, SP and NBSP. *)
Definition is_ws (ch : ascii) : bool :=
  match nat_of_ascii ch with
  | 9 | 10 | 11 | 12 | 13 | 32 | 160 => true
  | _ => false
  end.

Fixpoint trimStart (s : string) : string :=
  match s with
  | EmptyString => EmptyString
  | String ch rest => if is_ws ch then trimStart rest else s
  end.

Fixpoint trimEnd (s : string) : string :=
  match s with
  | EmptyString => EmptyString
  | String ch rest =>
      match trimEnd rest with
      | EmptyString => if is_ws ch then EmptyString else String ch EmptyString
      | t => String ch t
      end
  end.

(** [s.trim()] *)
Definition trim (s : string) : string := trimEnd (trimStart s).

(** [s === ''] *)
Definition is_empty_string (s : string) : bool :=
  match s with EmptyString => true | _ => false end.

(** Truthiness of a string: every string but the empty one. *)
Definition truthy (s : string) : bool := negb (is_empty_string s).

(** How often the code unit [ch] occurs in [s]. *)
Fixpoint count_char (ch : ascii) (s : string) : nat :=
  match s with
  | EmptyString => 0
  | String a rest => (if Ascii.eqb a ch then 1 else 0) + count_char ch rest
  end.

(** No two quotation marks of [s] are next to each other. *)
Fixpoint no_doubled_quote (s : string) : bool :=
  match s with
  | String a (String b _ as rest) =>
      negb (Ascii.eqb a dquote && Ascii.eqb b dquote) && no_doubled_quote rest
  | _ => true
  end.

(** What a run of script code can throw. *)
Inductive Error : Type :=
| TypeError                                   (* property read on undefined or null *)
| SyntaxError                                 (* JSON.parse *)
| NetworkError                                (* fetch rejected *)
| FetchFailed (sheetName statusText : string) (* response.ok is false *)
| WrapperMissing (sheetName : string)         (* the callback pattern did not match *)
| FsError.                                    (* mkdirSync or writeFileSync *)

(** A computation that returns or throws. *)
Inductive Exc (A : Type) : Type :=
| Throw (e : Error)
| Ret (a : A).
Arguments Throw {A} e.
Arguments Ret {A} a.

Definition bind {A B} (m : Exc A) (k : A -> Exc B) : Exc B :=
  match m with
  | Throw e => Throw e
  | Ret a => k a
  end.

(** Reading a property of [o]: a TypeError when [o] is undefined. *)
Definition defined {A} (o : option A) : Exc A :=
  match o with
  | Some a => Ret a
  | None => Throw TypeError
  end.

(** The values JSON.parse can produce, and undefined for a property that
    is absent.  The extractors never look inside a number, an array or an
    object; a number's payload is kept as an integer. *)
#[warnings="-register-all"]
Inductive value : Type :=
| Undefined
| Null
| Bool (b : bool)
| Num (n : Z)
| Str (s : string)
| Arr (items : list value)
| Obj (props : list (string * value)).

(** [x === null || x === undefined] *)
Definition nullish (x : value) : bool :=
  match x with
  | Undefined | Null => true
  | _ => false
  end.

(** [a ?? b] *)
Definition coalesce (a b : value) : value := if nullish a then b else a.

(** [x === '' || x === null || x === undefined] *)
Definition is_blank (x : value) : bool :=
  match x with
  | Undefined | Null => true
  | Str s => is_empty_string s
  | _ => false
  end.

(** [obj[k] = x] on an object made by an object literal.  The name
    __proto__ is the one exception among the names: the assignment goes to
    the prototype setter and leaves the own properties as they are. *)
Definition set_property {V} (k : string) (x : V) (obj : gmap string V)
    : gmap string V :=
  if String.eqb k "__proto__" then obj else <[k := x]> obj.

(** Math.ceil (a / b) for integers [a] and a positive integer [b]. *)
Definition ceil_div (a b : Z) : Z := (- ((- a) / b))%Z.

End Js.

(** The notation [x ← m; k] for a script that goes on with [k] when [m]
    returns and throws what [m] throws. *)
#[global] Instance Exc_bind : MBind Js.Exc := fun A B k m => Js.bind m k.

(* ===================================================================== *)
(** * The CSV variant                                                     *)
(* ===================================================================== *)

Module Csv.
Import Js.

(** parseCSVRow: the loop over the characters of [row], with the state
    [values], [current], [inQuotes].  The step [i++] of the escape branch
    consumes the next character together with the current one. *)
Fixpoint parseCSVRow_loop (row : string) (values : list string)
    (current : string) (inQuotes : bool) : list string :=
  match row with
  | EmptyString => values ++ [current]
  | String char rest =>
      if Ascii.eqb char dquote then
        match rest with
        | String next rest' =>
            if inQuotes && Ascii.eqb next dquote
            then parseCSVRow_loop rest' values (push_char current dquote) inQuotes
            else parseCSVRow_loop rest values current (negb inQuotes)
        | EmptyString => parseCSVRow_loop rest values current (negb inQuotes)
        end
      else if Ascii.eqb char comma && negb inQuotes then
        parseCSVRow_loop rest (values ++ [current]) EmptyString inQuotes
      else
        parseCSVRow_loop rest values (push_char current char) inQuotes
  end.

Definition parseCSVRow (row : string) : list string :=
  parseCSVRow_loop row [] EmptyString false.

(** The first loop of parseCSV: the text is cut into lines. *)
Fixpoint lines_loop (csvText : string) (lines : list string)
    (currentLine : string) (inQuotes : bool) : list string * string :=
  match csvText with
  | EmptyString => (lines, currentLine)
  | String char rest =>
      if Ascii.eqb char dquote then
        match rest with
        | String next rest' =>
            if inQuotes && Ascii.eqb next dquote
            then lines_loop rest' lines (push_char currentLine dquote) inQuotes
            else lines_loop rest lines (push_char currentLine char) (negb inQuotes)
        | EmptyString =>
            lines_loop rest lines (push_char currentLine char) (negb inQuotes)
        end
      else if Ascii.eqb char LF && negb inQuotes then
        lines_loop rest
          (if truthy (trim currentLine) then lines ++ [currentLine] else lines)
          EmptyString inQuotes
      else if Ascii.eqb char CR && negb inQuotes then
        lines_loop rest lines currentLine inQuotes
      else
        lines_loop rest lines (push_char currentLine char) inQuotes
  end.

(** The lines of the text, the last one included when it is not blank. *)
Definition split_lines (csvText : string) : list string :=
  let '(lines, currentLine) := lines_loop csvText [] EmptyString false in
  if truthy (trim currentLine) then lines ++ [currentLine] else lines.

(** [values.some(v => v.trim() !== '')] *)
Definition hasData (values : list string) : bool :=
  existsb (fun v => truthy (trim v)) values.

(** One turn of the loop over [j]: the state is [obj] and [rowHasData]. *)
Definition field_step (headers values : list string)
    (st : gmap string string * bool) (j : nat) : gmap string string * bool :=
  let header := trim <$> (headers !! j) in
  let value := default EmptyString (trim <$> (values !! j)) in
  match header with
  | Some h =>
      if truthy h && negb (is_empty_string value)
      then (set_property h value (fst st), true)
      else st
  | None => st
  end.

Definition build_row (headers values : list string) : gmap string string * bool :=
  foldl (field_step headers values) (∅, false) (seq 0 (length headers)).

(** The loop over the data lines, [i] running over [todo]. *)
Fixpoint rows_loop (headers lines : list string) (todo : list nat)
    (results : list (gmap string string)) : Exc (list (gmap string string)) :=
  match todo with
  | [] => Ret results
  | i :: todo' =>
      line ← defined (lines !! i);
      let values := parseCSVRow line in
      if negb (hasData values) then rows_loop headers lines todo' results
      else
        let '(obj, rowHasData) := build_row headers values in
        if rowHasData
        then rows_loop headers lines todo' (results ++ [obj])
        else rows_loop headers lines todo' results
  end.

Definition parseCSV (csvText : string) : Exc (list (gmap string string)) :=
  let lines := split_lines csvText in
  if length lines <? 2 then Ret []
  else
    header_line ← defined (lines !! 0);
    let headers := parseCSVRow header_line in
    rows_loop headers lines (seq 1 (length lines - 1)) [].

(** The quotation marks held by a list of fields. *)
Fixpoint quotes_in_fields (fields : list string) : nat :=
  match fields with
  | [] => 0
  | field :: rest => count_char dquote field + quotes_in_fields rest
  end.

(** [s] between two quotation marks. *)
Definition quoted (s : string) : string := String dquote (push_char s dquote).

(** Two quotation marks: the escape for one, inside a quoted field. *)
Definition escaped_quote : string := String dquote (String dquote EmptyString).

(** Every entry of [obj] is the trimmed text of a field of the line, not
    empty, under the trimmed text of the header field of the same
    position. *)
Definition from_fields (headers values : list string)
    (obj : gmap string string) : Prop :=
  forall k x, obj !! k = Some x ->
    x <> EmptyString /\ k <> EmptyString /\
    exists j h val, headers !! j = Some h /\ values !! j = Some val /\
                    trim h = k /\ trim val = x.

End Csv.

(* ===================================================================== *)
(** * The parsed response of the visualization endpoint                   *)
(* ===================================================================== *)

Module Sheet.
Import Js.

(** A column: [label] is a string, or absent. *)
Record Col := { col_label : option string }.

(** A cell: the raw value [v] and the formatted text [f]; a property that
    is absent reads as undefined. *)
Record Cell := { v : value; f : value }.

(** A row: the cell array [c], absent or null for [None]; an entry of the
    array is a cell or null. *)
Record Row := { c : option (list (option Cell)) }.

Record Table := { cols : list Col; rows : list Row }.

(** [row.c[i]]: undefined past the end, null for a null entry. *)
Definition cell_at (cells : list (option Cell)) (i : nat) : option Cell :=
  mjoin (cells !! i).

(** [cell?.v] and [cell?.f] *)
Definition opt_v (cell : option Cell) : value :=
  match cell with Some x => v x | None => Undefined end.
Definition opt_f (cell : option Cell) : value :=
  match cell with Some x => f x | None => Undefined end.

(** [obj[k] = x] for a key [k] that is a string or undefined: the property
    name of undefined is the string undefined. *)
Definition property_key (k : option string) : string := default "undefined" k.

End Sheet.

(* ===================================================================== *)
(** * The first JSON variant                                              *)
(* ===================================================================== *)

Module Legacy.
Import Js Sheet.

(** [table.cols.map(col => col.label || '')] *)
Definition headers (table_cols : list Col) : list string :=
  map (fun col => default EmptyString (col_label col)) table_cols.

(** The callback of [row.c.forEach]. *)
Definition cell_step (headers : list string) (obj : gmap string value)
    (ic : nat * option Cell) : gmap string value :=
  match headers !! ic.1 with
  | Some header =>
      if truthy header
      then set_property header (coalesce (opt_v ic.2) (Str EmptyString)) obj
      else obj
  | None => obj
  end.

(** The callback of [table.rows.map]: [row.c.forEach] throws when [row.c]
    is absent. *)
Definition row_obj (headers : list string) (row : Row) : Exc (gmap string value) :=
  cells ← defined (c row);
  Ret (foldl (cell_step headers) ∅ (imap pair cells)).

Fixpoint map_rows (headers : list string) (table_rows : list Row)
    : Exc (list (gmap string value)) :=
  match table_rows with
  | [] => Ret []
  | row :: rest =>
      obj ← row_obj headers row;
      objs ← map_rows headers rest;
      Ret (obj :: objs)
  end.

(** fetchSheetData, from the parsed table on. *)
Definition process_table (table : Table) : Exc (list (gmap string value)) :=
  map_rows (headers (cols table)) (rows table).

End Legacy.

(* ===================================================================== *)
(** * The current script: scripts/build-report-data.ts                    *)
(* ===================================================================== *)

Module Gviz.
Import Js Sheet.

(** The objects [{ label: col.label?.trim(), index: i }]. *)
Record ValidCol := { label : option string; index : nat }.

(** [col.label !== ''] *)
Definition label_not_empty (col : ValidCol) : bool :=
  match label col with
  | Some s => negb (is_empty_string s)
  | None => true
  end.

Definition validCols (table_cols : list Col) : list ValidCol :=
  List.filter label_not_empty
    (imap (fun i col => {| label := trim <$> col_label col; index := i |}) table_cols).

Definition MAX_CONSECUTIVE_EMPTY : nat := 10.

(** [cell?.v !== null && cell?.v !== undefined ? cell.v : (cell?.f ?? null)] *)
Definition cell_value (cell : option Cell) : value :=
  if negb (nullish (opt_v cell)) then opt_v cell else coalesce (opt_f cell) Null.

(** The body of the loop over [validCols] that fills [obj]. *)
Definition col_step (cells : list (option Cell)) (obj : gmap string value)
    (col : ValidCol) : gmap string value :=
  let value := cell_value (cell_at cells (index col)) in
  if negb (is_blank value)
  then set_property (property_key (label col)) value obj
  else obj.

Definition build_obj (validCols : list ValidCol) (cells : list (option Cell))
    : gmap string value :=
  foldl (col_step cells) ∅ validCols.

(** How one turn of the loop over the rows ends: with the next turn, or
    with [break]. *)
Inductive Turn : Type :=
| Next (consecutiveEmpty : nat) (results : list (gmap string value))
| Break (results : list (gmap string value)).

(** One turn of the loop over [table.rows]. *)
Definition row_step (validCols : list ValidCol) (row : Row)
    (consecutiveEmpty : nat) (results : list (gmap string value)) : Turn :=
  match c row, validCols with
  | Some cells, firstCol :: _ =>
      let firstValue := cell_value (cell_at cells (index firstCol)) in
      if is_blank firstValue then
        let consecutiveEmpty := S consecutiveEmpty in
        if MAX_CONSECUTIVE_EMPTY <=? consecutiveEmpty
        then Break results
        else Next consecutiveEmpty results
      else
        Next 0 (results ++ [build_obj validCols cells])
  | _, _ => Next consecutiveEmpty results
  end.

Fixpoint rows_loop (validCols : list ValidCol) (table_rows : list Row)
    (consecutiveEmpty : nat) (results : list (gmap string value))
    : list (gmap string value) :=
  match table_rows with
  | [] => results
  | row :: rest =>
      match row_step validCols row consecutiveEmpty results with
      | Next consecutiveEmpty' results' =>
          rows_loop validCols rest consecutiveEmpty' results'
      | Break results' => results'
      end
  end.

(** fetchSheetData, from the parsed table on. *)
Definition process_table (table : Table) : list (gmap string value) :=
  let validCols := validCols (cols table) in
  if length validCols =? 0 then []
  else rows_loop validCols (rows table) 0 [].

(** The first valid column of [row] is blank, or holds data.  Both are
    false for a row without a cell array. *)
Definition first_blank (firstCol : ValidCol) (row : Row) : bool :=
  match c row with
  | Some cells => is_blank (cell_value (cell_at cells (index firstCol)))
  | None => false
  end.

Definition first_data (firstCol : ValidCol) (row : Row) : bool :=
  match c row with
  | Some cells => negb (is_blank (cell_value (cell_at cells (index firstCol))))
  | None => false
  end.

(** [row.c] is truthy. *)
Definition has_cells (row : Row) : bool :=
  match c row with Some _ => true | None => false end.

(** Every entry of [obj] is the value of a cell of the row, not blank,
    under the label of a valid column. *)
Definition from_cell (vcs : list ValidCol) (cells : list (option Cell))
    (obj : gmap string value) : Prop :=
  forall k x, obj !! k = Some x ->
    is_blank x = false /\
    exists col, col ∈ vcs /\ property_key (label col) = k /\
                cell_value (cell_at cells (index col)) = x.

(** Two sample rows of one cell: a blank one and one with data. *)
Definition blank_row : Row := {| c := Some [Some {| v := Str EmptyString; f := Undefined |}] |}.
Definition data_row : Row := {| c := Some [Some {| v := Str "x"; f := Undefined |}] |}.

(** A response of the network client. *)
Record Response := { ok : bool; statusText : string; text : string }.

Section Fetch.
(** The network: the outcome of [fetch(url)]. *)
Variable fetch : string -> Exc Response.
Variable encodeURIComponent : string -> string.
(** [text.match] against the callback pattern, the call of
    google.visualization.Query.setResponse around one argument: the
    captured argument, when the pattern matches. *)
Variable match_wrapper : string -> option string.
(** [JSON.parse(s).table], read as a table. *)
Variable JSON_parse_table : string -> Exc Table.

Definition sheet_url (SHEET_ID sheetName : string) : string :=
  "https://docs.google.com/spreadsheets/d/" +:+ SHEET_ID +:+
  "/gviz/tq?tqx=out:json&sheet=" +:+ encodeURIComponent sheetName.

Definition fetchSheetData (SHEET_ID sheetName : string)
    : Exc (list (gmap string value)) :=
  response ← fetch (sheet_url SHEET_ID sheetName);
  if negb (ok response) then Throw (FetchFailed sheetName (statusText response))
  else
    match match_wrapper (text response) with
    | None => Throw (WrapperMissing sheetName)
    | Some jsonMatch1 =>
        table ← JSON_parse_table jsonMatch1;
        Ret (process_table table)
    end.
End Fetch.

End Gviz.

(* ===================================================================== *)
(** * The assembler: main of scripts/build-report-data.ts                 *)
(* ===================================================================== *)

Module Assembler.
Import Js Sheet.

Definition SHEET_NAMES : list string :=
  [ "Locations Metadata";
    "Yearly Funding Data";
    "Quarterly Funding Data";
    "Yearly Enterprise Value";
    "Top Industries, Tags, Rounds";
    "Top Rounds";
    "Regional Comparison" ].

(** What main reads of [new Date()]: the month is 0 for January. *)
Record Date := { getFullYear : Z; getMonth : Z; toISOString : string }.

Definition quarterNumber (now : Date) : Z := ceil_div (getMonth now + 1) 3.

(** The template [${year}Q${quarterNumber}]. *)
Definition reportingQuarter (now : Date) : string :=
  pretty (getFullYear now) +:+ "Q" +:+ pretty (quarterNumber now).

Record Meta := {
  generated_at : string;
  source_sheet_id : string;
  reporting_quarter : string;
  reporting_year : Z;
  reporting_quarter_number : Z;
  schema_version : string }.

(** [sheetsData[k]] is undefined past the end of the array. *)
Record Sheets := {
  locations : option (list (gmap string value));
  yearly_funding : option (list (gmap string value));
  quarterly_funding : option (list (gmap string value));
  yearly_ev : option (list (gmap string value));
  top_industries_tags : option (list (gmap string value));
  top_rounds : option (list (gmap string value));
  regional_comparison : option (list (gmap string value)) }.

Record Config := {
  map_enabled : bool;
  share_preview_enabled : bool;
  default_location_id : string }.

Record Output := { meta : Meta; sheets : Sheets; config : Config }.

Definition build_output (SHEET_ID : string) (now : Date)
    (sheetsData : list (list (gmap string value))) : Output :=
  {| meta := {| generated_at := toISOString now;
                source_sheet_id := SHEET_ID;
                reporting_quarter := reportingQuarter now;
                reporting_year := getFullYear now;
                reporting_quarter_number := quarterNumber now;
                schema_version := "2.0" |};
     sheets := {| locations := sheetsData !! 0;
                  yearly_funding := sheetsData !! 1;
                  quarterly_funding := sheetsData !! 2;
                  yearly_ev := sheetsData !! 3;
                  top_industries_tags := sheetsData !! 4;
                  top_rounds := sheetsData !! 5;
                  regional_comparison := sheetsData !! 6 |};
     config := {| map_enabled := false;
                  share_preview_enabled := true;
                  default_location_id := "london" |} |}.

(** The changes main makes to the file system.  What is written is the
    serialisation of an [Output]; the event carries the [Output]. *)
Inductive Effect : Type :=
| MkdirSync (path : string)
| WriteFileSync (path : string) (data : Output).

(** Everything main reads from outside. *)
Record World := {
  GOOGLE_SHEET_ID : option string;
  fetch : string -> Exc Gviz.Response;
  now : Date;
  cwd : string;
  existsSync : string -> bool;
  mkdirSync_fails : bool;
  writeFileSync_fails : bool }.

(** The end of a run: the file system events and the exit status. *)
Record Run := { effects : list Effect; exitCode : Z }.

(** Promise.all: the array of results when every promise is fulfilled, a
    rejection as soon as one is rejected.  Which rejection wins depends on
    timing; the one of least index stands for it here, and no statement
    below reads it. *)
Fixpoint Promise_all {A} (promises : list (Exc A)) : Exc (list A) :=
  match promises with
  | [] => Ret []
  | p :: rest =>
      match p, Promise_all rest with
      | Throw e, _ => Throw e
      | Ret _, Throw e => Throw e
      | Ret a, Ret others => Ret (a :: others)
      end
  end.

(** [path.join(a, b)] for two plain segments. *)
Definition path_join (a b : string) : string := a +:+ "/" +:+ b.

(** The summary printed after the write reads [sheetsData[i].length] for
    every index of SHEET_NAMES. *)
Fixpoint log_sizes (sheetsData : list (list (gmap string value)))
    (indices : list nat) : Exc unit :=
  match indices with
  | [] => Ret tt
  | i :: rest =>
      _ ← defined (sheetsData !! i);
      log_sizes sheetsData rest
  end.

Section Main.
Variable encodeURIComponent : string -> string.
Variable match_wrapper : string -> option string.
Variable JSON_parse_table : string -> Exc Table.

Definition fetchSheetData (w : World) : string -> string -> Exc (list (gmap string value)) :=
  Gviz.fetchSheetData (fetch w) encodeURIComponent match_wrapper JSON_parse_table.

(** The try block from the write on, once [sheetsData] is there: the
    effects made, and whether the block returned or threw. *)
Definition write_snapshot (w : World) (SHEET_ID : string)
    (sheetsData : list (list (gmap string value))) : list Effect * Exc unit :=
  let output := build_output SHEET_ID (now w) sheetsData in
  let publicDir := path_join (cwd w) "public" in
  let made := if existsSync w publicDir then [] else [MkdirSync publicDir] in
  if negb (existsSync w publicDir) && mkdirSync_fails w then ([], Throw FsError)
  else
    let outputPath := path_join publicDir "report-data.json" in
    if writeFileSync_fails w then (made, Throw FsError)
    else
      (made ++ [WriteFileSync outputPath output],
       _ ← defined (sheetsData !! 0);
       log_sizes sheetsData (seq 0 (length SHEET_NAMES))).

Definition main (w : World) : Run :=
  match GOOGLE_SHEET_ID w with
  | None => {| effects := []; exitCode := 1 |}
  | Some SHEET_ID =>
      if negb (truthy SHEET_ID) then {| effects := []; exitCode := 1 |}
      else
        match Promise_all (fetchSheetData w SHEET_ID <$> SHEET_NAMES) with
        | Throw err => {| effects := []; exitCode := 1 |}
        | Ret sheetsData =>
            match write_snapshot w SHEET_ID sheetsData with
            | (made, Throw err) => {| effects := made; exitCode := 1 |}
            | (made, Ret _) => {| effects := made; exitCode := 0 |}
            end
        end
  end.

(** The fetch of one sheet fails: the network call is rejected, the
    response is not a success, the callback pattern does not match, or
    what it wraps does not parse. *)
Definition fetch_fails (w : World) (SHEET_ID sheetName : string) : Prop :=
  match fetch w (Gviz.sheet_url encodeURIComponent SHEET_ID sheetName) with
  | Throw _ => True
  | Ret response =>
      Gviz.ok response = false
      \/ match_wrapper (Gviz.text response) = None
      \/ exists jsonMatch1 e,
           match_wrapper (Gviz.text response) = Some jsonMatch1
           /\ JSON_parse_table jsonMatch1 = Throw e
  end.
End Main.

Definition is_write (e : Effect) : bool :=
  match e with WriteFileSync _ _ => true | MkdirSync _ => false end.

(** The files a run wrote. *)
Definition writes (r : Run) : list Effect := List.filter is_write (effects r).

(** A world in which every response is a failure. *)
Definition failing_world : World :=
  {| GOOGLE_SHEET_ID := Some "sheet";
     fetch := fun _ => Ret {| Gviz.ok := false; Gviz.statusText := "Not Found";
                              Gviz.text := EmptyString |};
     now := {| getFullYear := 2024; getMonth := 8; toISOString := EmptyString |};
     cwd := EmptyString;
     existsSync := fun _ => true;
     mkdirSync_fails := false;
     writeFileSync_fails := false |}.

End Assembler.

(* ===================================================================== *)
(** * The fetch wrappers of the two earlier scripts                       *)
(* ===================================================================== *)

Module CsvScript.
Import Js Csv.

Section Fetch.
Variable fetch : string -> Exc Gviz.Response.
Variable encodeURIComponent : string -> string.

Definition sheet_url (SHEET_ID sheetName : string) : string :=
  "https://docs.google.com/spreadsheets/d/" +:+ SHEET_ID +:+
  "/gviz/tq?tqx=out:csv&sheet=" +:+ encodeURIComponent sheetName.

(** fetchSheetData of the CSV script. *)
Definition fetchSheetData (SHEET_ID sheetName : string)
    : Exc (list (gmap string string)) :=
  response ← fetch (sheet_url SHEET_ID sheetName);
  if negb (Gviz.ok response)
  then Throw (FetchFailed sheetName (Gviz.statusText response))
  else parseCSV (Gviz.text response).
End Fetch.

End CsvScript.

Module LegacyScript.
Import Js Sheet.

Section Fetch.
Variable fetch : string -> Exc Gviz.Response.
Variable encodeURIComponent : string -> string.
Variable match_wrapper : string -> option string.
Variable JSON_parse_table : string -> Exc Table.

(** fetchSheetData of the first JSON script; the address is the one of
    the current script. *)
Definition fetchSheetData (SHEET_ID sheetName : string)
    : Exc (list (gmap string value)) :=
  response ← fetch (Gviz.sheet_url encodeURIComponent SHEET_ID sheetName);
  if negb (Gviz.ok response)
  then Throw (FetchFailed sheetName (Gviz.statusText response))
  else
    match match_wrapper (Gviz.text response) with
    | None => Throw (WrapperMissing sheetName)
    | Some jsonMatch1 =>
        table ← JSON_parse_table jsonMatch1;
        Legacy.process_table table
    end.
End Fetch.

End LegacyScript.

(* ===================================================================== *)
(** * Notions used to state the behaviour of the extractors               *)
(* ===================================================================== *)

Module CsvAux.
Import Js Csv.

(** A line with a character left after trimming. *)
Definition not_blank (line : string) : Prop := trim line <> EmptyString.

(** The fields of a line, joined by commas. *)
Fixpoint join_commas (fields : list string) : string :=
  match fields with
  | [] => EmptyString
  | [field] => field
  | field :: rest => field +:+ String comma (join_commas rest)
  end.

(** [s] without its carriage returns. *)
Fixpoint drop_CR (s : string) : string :=
  match s with
  | EmptyString => EmptyString
  | String ch rest =>
      if Ascii.eqb ch CR then drop_CR rest else String ch (drop_CR rest)
  end.

(** The record a data line gives, when it gives one. *)
Definition line_record (headers : list string) (line : string)
    : option (gmap string string) :=
  let '(obj, rowHasData) := build_row headers (parseCSVRow line) in
  if rowHasData then Some obj else None.

(** Position [j] holds a value that is not blank under a header that is
    not blank. *)
Definition filled (headers values : list string) (j : nat) : Prop :=
  exists h val, headers !! j = Some h /\ values !! j = Some val
                /\ trim h <> EmptyString /\ trim val <> EmptyString.

End CsvAux.

Module GvizAux.
Import Js Sheet Gviz.

(** The record a row gives when the loop reaches it: none for a row
    without cells or with a blank first valid column. *)
Definition row_record (validCols : list ValidCol) (row : Row)
    : option (gmap string value) :=
  match c row, validCols with
  | Some cells, firstCol :: _ =>
      if is_blank (cell_value (cell_at cells (index firstCol)))
      then None
      else Some (build_obj validCols cells)
  | _, _ => None
  end.

(** The number of rows whose first valid column is blank. *)
Definition blank_rows (validCols : list ValidCol) (table_rows : list Row) : nat :=
  match validCols with
  | firstCol :: _ => length (List.filter (first_blank firstCol) table_rows)
  | [] => 0
  end.

End GvizAux.

Module AssemblerAux.
Import Js Sheet Assembler.

(** A parsed table of one labelled column and one row. *)
Definition sample_table : Table :=
  {| cols := [ {| col_label := Some "A" |} ]; rows := [Gviz.data_row] |}.

(** A world in which every fetch answers and the file system works; the
    output directory does not exist yet. *)
Definition working_world : World :=
  {| GOOGLE_SHEET_ID := Some "sheet";
     fetch := fun _ => Ret {| Gviz.ok := true; Gviz.statusText := "OK";
                              Gviz.text := "payload" |};
     now := {| getFullYear := 2024; getMonth := 8; toISOString := EmptyString |};
     cwd := "/app";
     existsSync := fun _ => false;
     mkdirSync_fails := false;
     writeFileSync_fails := false |}.

End AssemblerAux.

(* ===================================================================== *)
(** * Properties of the CSV extractor                                     *)
(* ===================================================================== *)

Module CsvFacts.
Import Js Csv.

(** ** Strings *)

Lemma string_length_ind (P : string -> Prop) :
  (forall s, (forall t, String.length t < String.length s -> P t) -> P s) ->
  forall s, P s.
Proof. intros H. apply (induction_ltof1 _ String.length). exact H. Qed.

Lemma append_cons (a : ascii) (s t : string) :
  String a s +:+ t = String a (s +:+ t).
Proof. reflexivity. Qed.

Lemma append_empty_r (s : string) : s +:+ EmptyString = s.
Proof. induction s as [|a s IH]; [done|]. by rewrite append_cons, IH. Qed.

Lemma push_char_append (s rest : string) (ch : ascii) :
  push_char s ch +:+ rest = s +:+ String ch rest.
Proof.
  unfold push_char. induction s as [|a s IH]; [done|].
  by rewrite !append_cons, IH.
Qed.

Lemma count_char_push (ch a : ascii) (s : string) :
  count_char ch (push_char s a) = count_char ch s + (if Ascii.eqb a ch then 1 else 0).
Proof.
  unfold push_char. induction s as [|b s IH]; [simpl; lia|].
  rewrite append_cons. simpl. rewrite IH. lia.
Qed.

Lemma trim_not_empty (s : string) : trim s <> EmptyString -> s <> EmptyString.
Proof. by intros H ->. Qed.

Example trim_inner_space : trim "  Top Rounds  " = "Top Rounds".
Proof. reflexivity. Qed.

Example trim_blank_line : trim (String CR "   ") = EmptyString.
Proof. reflexivity. Qed.

Example parseCSVRow_ragged : parseCSVRow "a,,b," = ["a"; ""; "b"; ""].
Proof. reflexivity. Qed.

Lemma quotes_in_fields_snoc (values : list string) (current : string) :
  quotes_in_fields (values ++ [current])
  = quotes_in_fields values + count_char dquote current.
Proof.
  induction values as [|value values IH]; simpl; [lia|]. rewrite IH. lia.
Qed.

(** ** The row splitter and quotation marks *)

(** A quotation mark reaches a field only through a doubled one. *)
Lemma parseCSVRow_loop_quotes (row : string) :
  forall values current inQuotes,
    2 * quotes_in_fields (parseCSVRow_loop row values current inQuotes)
    <= 2 * (quotes_in_fields values + count_char dquote current)
       + count_char dquote row.
Proof.
  induction row as [row IH] using string_length_ind.
  intros values current inQuotes.
  destruct row as [|char rest]; simpl.
  { rewrite quotes_in_fields_snoc. lia. }
  destruct (Ascii.eqb char dquote) eqn:Eq.
  - destruct rest as [|next rest'].
    + simpl. rewrite quotes_in_fields_snoc. lia.
    + destruct (inQuotes && Ascii.eqb next dquote) eqn:Eesc.
      * apply andb_true_iff in Eesc as [_ Enext].
        etrans; [apply IH; simpl; lia|].
        rewrite count_char_push. simpl. rewrite Enext.
        replace (Ascii.eqb dquote dquote) with true by done. lia.
      * etrans; [apply IH; simpl; lia|]. lia.
  - destruct (Ascii.eqb char comma && negb inQuotes).
    + etrans; [apply IH; simpl; lia|].
      rewrite quotes_in_fields_snoc. simpl. lia.
    + etrans; [apply IH; simpl; lia|].
      rewrite count_char_push, Eq. lia.
Qed.

(** With no doubled quotation mark in the line, none reaches a field. *)
Lemma parseCSVRow_loop_no_doubled (row : string) :
  forall values current inQuotes,
    no_doubled_quote row = true ->
    quotes_in_fields (parseCSVRow_loop row values current inQuotes)
    = quotes_in_fields values + count_char dquote current.
Proof.
  induction row as [|char rest IH]; intros values current inQuotes Hnd.
  { simpl. apply quotes_in_fields_snoc. }
  cbn [parseCSVRow_loop].
  destruct (Ascii.eqb char dquote) eqn:Eq.
  - destruct rest as [|next rest'].
    + simpl. apply quotes_in_fields_snoc.
    + cbn [no_doubled_quote] in Hnd. rewrite Eq in Hnd.
      apply andb_true_iff in Hnd as [Hnext Hnd].
      apply negb_true_iff in Hnext. simpl in Hnext. rewrite Hnext.
      rewrite andb_false_r. by apply IH.
  - assert (Hrest : no_doubled_quote rest = true).
    { destruct rest; [done|]. cbn [no_doubled_quote] in Hnd.
      by apply andb_true_iff in Hnd as [_ Hnd]. }
    destruct (Ascii.eqb char comma && negb inQuotes).
    + rewrite IH by done. rewrite quotes_in_fields_snoc. simpl. lia.
    + rewrite IH by done. rewrite count_char_push, Eq. lia.
Qed.

(** ** The line tokenizer *)

(** The tokenizer copies a text without line breaks and without doubled
    quotation marks, the marks included. *)
Lemma lines_loop_copies (csvText : string) :
  forall lines currentLine inQuotes,
    no_doubled_quote csvText = true ->
    count_char LF csvText = 0 -> count_char CR csvText = 0 ->
    lines_loop csvText lines currentLine inQuotes
    = (lines, currentLine +:+ csvText).
Proof.
  induction csvText as [|char rest IH]; intros lines currentLine inQuotes Hnd Hlf Hcr.
  { cbn [lines_loop]. by rewrite append_empty_r. }
  assert (Hrest : no_doubled_quote rest = true).
  { destruct rest; [done|]. cbn [no_doubled_quote] in Hnd.
    by apply andb_true_iff in Hnd as [_ Hnd]. }
  cbn [lines_loop]. simpl in Hlf, Hcr.
  destruct (Ascii.eqb char LF) eqn:Elf; [lia|].
  destruct (Ascii.eqb char CR) eqn:Ecr; [lia|].
  simpl in Hlf, Hcr. simpl.
  destruct (Ascii.eqb char dquote) eqn:Eq.
  - destruct rest as [|next rest'].
    + reflexivity.
    + cbn [no_doubled_quote] in Hnd. rewrite Eq in Hnd.
      apply andb_true_iff in Hnd as [Hnext _].
      apply negb_true_iff in Hnext. simpl in Hnext. rewrite Hnext.
      rewrite andb_false_r. rewrite IH by done. by rewrite push_char_append.
  - rewrite IH by done. by rewrite push_char_append.
Qed.

(** Without a line feed the text is one line at most. *)
Lemma lines_loop_no_LF (csvText : string) :
  forall lines currentLine inQuotes,
    count_char LF csvText = 0 ->
    (lines_loop csvText lines currentLine inQuotes).1 = lines.
Proof.
  induction csvText as [csvText IH] using string_length_ind.
  intros lines currentLine inQuotes Hlf.
  destruct csvText as [|char rest]; [done|].
  cbn [lines_loop]. simpl in Hlf.
  destruct (Ascii.eqb char LF) eqn:Elf; [lia|]. simpl in Hlf. simpl.
  destruct (Ascii.eqb char dquote) eqn:Eq.
  - destruct rest as [|next rest']; [done|].
    destruct (inQuotes && Ascii.eqb next dquote).
    + apply IH; [simpl; lia|]. simpl in Hlf.
      destruct (Ascii.eqb next LF); simpl in Hlf; lia.
    + apply IH; [simpl; lia|done].
  - destruct (Ascii.eqb char CR && negb inQuotes); apply IH; simpl; first [lia|done].
Qed.

Lemma split_lines_no_LF (csvText : string) :
  count_char LF csvText = 0 -> length (split_lines csvText) <= 1.
Proof.
  intros Hlf. unfold split_lines.
  pose proof (lines_loop_no_LF csvText [] EmptyString false Hlf) as H.
  destruct (lines_loop csvText [] EmptyString false) as [lines currentLine].
  simpl in H. subst lines. destruct (truthy _); simpl; lia.
Qed.

(** ** The loop over the data lines never throws *)

Lemma bind_defined {A B} (o : option A) (a : A) (k : A -> Exc B) :
  o = Some a -> (x ← defined o; k x) = k a.
Proof. by intros ->. Qed.

Lemma rows_loop_returns (headers lines : list string) (todo : list nat) :
  forall results,
    Forall (fun i => i < length lines) todo ->
    exists records, rows_loop headers lines todo results = Ret records.
Proof.
  induction todo as [|i todo IH]; intros results Hall; simpl.
  - by exists results.
  - inversion Hall as [|? ? Hi Hall']; subst.
    apply lookup_lt_is_Some_2 in Hi as [line Hline].
    rewrite (bind_defined _ _ _ Hline).
    destruct (negb (hasData _)); [by apply IH|].
    destruct (build_row _ _) as [obj [|]]; by apply IH.
Qed.

Lemma parseCSV_few_lines (csvText : string) :
  length (split_lines csvText) < 2 -> parseCSV csvText = Ret [].
Proof.
  intros H. unfold parseCSV.
  by destruct (Nat.ltb_spec (length (split_lines csvText)) 2); [|lia].
Qed.

(** ** Records are built from the fields of a line *)

Lemma field_step_from_fields (headers values : list string)
    (st : gmap string string * bool) (j : nat) :
  from_fields headers values st.1 ->
  from_fields headers values (field_step headers values st j).1.
Proof.
  intros Hst. unfold field_step.
  destruct (headers !! j) as [h|] eqn:Hh; simpl; [|done].
  destruct (values !! j) as [val|] eqn:Hval; simpl.
  - destruct (truthy (trim h) && negb (is_empty_string (trim val))) eqn:E; [|done].
    apply andb_true_iff in E as [Eh Ev]. simpl.
    unfold set_property. destruct (String.eqb _ _); [done|].
    intros k x. destruct (decide (trim h = k)) as [<-|Hne].
    + rewrite lookup_insert_eq. intros [= <-]. split; [|split].
      * intros E. by rewrite E in Ev.
      * intros E. by rewrite E in Eh.
      * by exists j, h, val.
    + rewrite lookup_insert_ne by done. apply Hst.
  - by rewrite andb_false_r.
Qed.

Lemma build_row_from_fields (headers values : list string) :
  from_fields headers values (build_row headers values).1.
Proof.
  unfold build_row.
  assert (H0 : from_fields headers values (∅ : gmap string string, false).1).
  { intros k x. simpl. by rewrite lookup_empty. }
  revert H0. generalize (∅ : gmap string string, false).
  induction (seq 0 (length headers)) as [|j js IH]; intros st Hst; simpl; [done|].
  apply IH. by apply field_step_from_fields.
Qed.

Lemma rows_loop_from_lines (headers lines : list string)
    (P : gmap string string -> Prop) (todo : list nat) :
  (forall i line, lines !! i = Some line -> i ∈ todo ->
     P (build_row headers (parseCSVRow line)).1) ->
  forall results records,
    Forall P results ->
    rows_loop headers lines todo results = Ret records ->
    Forall P records.
Proof.
  induction todo as [|i todo IH]; intros HP results records Hres; simpl.
  - by intros [= <-].
  - destruct (lines !! i) as [line|] eqn:Hline; [|done]. simpl.
    assert (HP' : forall i0 line0, lines !! i0 = Some line0 -> i0 ∈ todo ->
              P (build_row headers (parseCSVRow line0)).1).
    { intros i0 line0 H0 Hin. apply (HP i0); [done|set_solver]. }
    destruct (negb (hasData _)); [by apply IH|].
    destruct (build_row _ _) as [obj [|]] eqn:Eb; [|by apply IH].
    apply IH; [done|]. apply Forall_app. split; [done|].
    constructor; [|done].
    replace obj with (build_row headers (parseCSVRow line)).1 by (by rewrite Eb).
    apply (HP i); [done|set_solver].
Qed.

(** ** The claims *)

(** C3, as the code has it.  The row splitter drops the quotation marks
    that open and close a quoted field: a mark reaches a field only as the
    one left of a doubled mark, so the fields hold at most half as many
    marks as the line, and none when the line has no two adjacent marks.
    The line tokenizer, in contrast, copies such a line with its marks. *)
Theorem row_splitter_strips_quotes (row : string) :
  2 * quotes_in_fields (parseCSVRow row) <= count_char dquote row
  /\ (no_doubled_quote row = true -> quotes_in_fields (parseCSVRow row) = 0)
  /\ (no_doubled_quote row = true ->
      count_char LF row = 0 -> count_char CR row = 0 ->
      lines_loop row [] EmptyString false = ([], row)).
Proof.
  split; [|split].
  - pose proof (parseCSVRow_loop_quotes row [] EmptyString false) as H.
    simpl in H. unfold parseCSVRow. lia.
  - intros Hnd. unfold parseCSVRow.
    by rewrite parseCSVRow_loop_no_doubled.
  - intros Hnd Hlf Hcr. by rewrite lines_loop_copies.
Qed.

Lemma row_splitter_strips_quotes_witness :
  quotes_in_fields (parseCSVRow (quoted "a,b")) = 0
  /\ lines_loop (quoted "a,b") [] EmptyString false = ([], quoted "a,b").
Proof.
  destruct (row_splitter_strips_quotes (quoted "a,b")) as (_ & H0 & Hcopy).
  split.
  - apply H0. reflexivity.
  - apply Hcopy; reflexivity.
Defined.

(** C3, as the claim has it, fails: the line made of a,b between two
    quotation marks holds two marks, and its one field holds none. *)
Lemma quoted_field_loses_quotes :
  count_char dquote (quoted "a,b") = 2
  /\ parseCSVRow (quoted "a,b") = ["a,b"]
  /\ quotes_in_fields (parseCSVRow (quoted "a,b")) = 0.
Proof. repeat split. Qed.

(** C4.  A doubled quotation mark inside a quoted field is unescaped
    twice, by the tokenizer and again by the row splitter, which takes the
    mark the tokenizer left for a closing one: the field loses both marks.
    The row splitter alone, on the same field, keeps one mark per pair.  A
    quoted comma stays inside its field. *)
Theorem doubled_quote_unescaped_twice :
  let field := quoted ("he said " +:+ escaped_quote +:+ "hi" +:+ escaped_quote) in
  parseCSV ("H" +:+ String LF field) = Ret [ {[ "H" := "he said hi" ]} ]
  /\ split_lines ("H" +:+ String LF field)
     = [ "H"; quoted ("he said " +:+ String dquote ("hi" +:+ String dquote EmptyString)) ]
  /\ parseCSVRow field
     = [ "he said " +:+ String dquote ("hi" +:+ String dquote EmptyString) ]
  /\ "he said hi" <> "he said " +:+ String dquote ("hi" +:+ String dquote EmptyString)
  /\ parseCSV ("H" +:+ String LF (quoted "a,b")) = Ret [ {[ "H" := "a,b" ]} ].
Proof.
  cbv zeta. split; [vm_compute; reflexivity|].
  split; [reflexivity|]. split; [reflexivity|].
  split; [discriminate|]. vm_compute; reflexivity.
Qed.

(** C8.  parseCSV returns for every text; the result is empty when the
    text has fewer than two lines that are not blank, as is the case for
    every text without a line feed. *)
Theorem parseCSV_never_throws (csvText : string) :
  (exists records, parseCSV csvText = Ret records)
  /\ (length (split_lines csvText) < 2 -> parseCSV csvText = Ret [])
  /\ (count_char LF csvText = 0 -> parseCSV csvText = Ret []).
Proof.
  split; [|split].
  - unfold parseCSV.
    destruct (Nat.ltb_spec (length (split_lines csvText)) 2) as [|Hlen]; [by eexists|].
    destruct (lookup_lt_is_Some_2 (split_lines csvText) 0) as [header_line Hh]; [lia|].
    rewrite (bind_defined _ _ _ Hh).
    apply rows_loop_returns.
    apply Forall_forall. intros i Hi%elem_of_seq. lia.
  - apply parseCSV_few_lines.
  - intros Hlf. apply parseCSV_few_lines.
    pose proof (split_lines_no_LF csvText Hlf). lia.
Qed.

Lemma parseCSV_never_throws_witness : parseCSV "Name,Value" = Ret [].
Proof.
  apply (proj2 (proj2 (parseCSV_never_throws "Name,Value"))). reflexivity.
Defined.

(** C9.  The header Name,Value with the data lines Foo,1 and a lone
    comma gives one record, Name to Foo and Value to 1; so it does with a
    line feed after the last line. *)
Theorem name_value_example :
  parseCSV ("Name,Value" +:+ String LF ("Foo,1" +:+ String LF ","))
  = Ret [ {[ "Name" := "Foo"; "Value" := "1" ]} ]
  /\ parseCSV ("Name,Value" +:+ String LF ("Foo,1" +:+ String LF ("," +:+ String LF EmptyString)))
     = Ret [ {[ "Name" := "Foo"; "Value" := "1" ]} ].
Proof. split; vm_compute; reflexivity. Qed.

End CsvFacts.

(* ===================================================================== *)
(** * Properties of the current JSON extractor                            *)
(* ===================================================================== *)

Module GvizFacts.
Import Js Sheet Gviz.

Section Loop.
Variable vcs : list ValidCol.

(** The results collected so far are a prefix of the final results. *)
Lemma rows_loop_acc (table_rows : list Row) (n : nat)
    (results : list (gmap string value)) :
  rows_loop vcs table_rows n results = results ++ rows_loop vcs table_rows n [].
Proof.
  revert n results.
  induction table_rows as [|row rest IH]; intros n results; simpl.
  - by rewrite app_nil_r.
  - unfold row_step.
    destruct (c row) as [cells|]; [destruct vcs as [|firstCol others] eqn:E|].
    + apply IH.
    + destruct (is_blank _).
      * destruct (MAX_CONSECUTIVE_EMPTY <=? S n); [by rewrite app_nil_r|apply IH].
      * rewrite IH. rewrite (IH 0 ([] ++ _)). by rewrite <- app_assoc.
    + apply IH.
Qed.

(** A row without a cell array leaves the loop state as it is. *)
Lemma row_step_no_cells (n : nat) (results : list (gmap string value)) :
  row_step vcs {| c := None |} n results = Next n results.
Proof. reflexivity. Qed.

Lemma rows_loop_filter_cells (table_rows : list Row) (n : nat)
    (results : list (gmap string value)) :
  rows_loop vcs (List.filter has_cells table_rows) n results
  = rows_loop vcs table_rows n results.
Proof.
  revert n results.
  induction table_rows as [|[[cells|]] rest IH]; intros n results; simpl.
  - reflexivity.
  - destruct (row_step _ _ _ _); [apply IH|reflexivity].
  - apply IH.
Qed.
End Loop.

Section FirstColumn.
Variables (firstCol : ValidCol) (others : list ValidCol).
Let vcs := firstCol :: others.

Lemma row_step_blank (row : Row) (n : nat) (results : list (gmap string value)) :
  first_blank firstCol row = true ->
  row_step vcs row n results
  = if MAX_CONSECUTIVE_EMPTY <=? S n then Break results else Next (S n) results.
Proof.
  unfold first_blank, row_step, vcs. destruct (c row) as [cells|]; [|done].
  by intros ->.
Qed.

Lemma row_step_data (row : Row) (cells : list (option Cell)) (n : nat)
    (results : list (gmap string value)) :
  c row = Some cells -> first_data firstCol row = true ->
  row_step vcs row n results = Next 0 (results ++ [build_obj vcs cells]).
Proof.
  unfold first_data, row_step, vcs. intros ->.
  by intros ->%negb_true_iff.
Qed.

(** A run of blank rows that stays below the threshold only moves the
    counter. *)
Lemma rows_loop_blank_run (empties rest : list Row) (n : nat)
    (results : list (gmap string value)) :
  Forall (fun row => first_blank firstCol row = true) empties ->
  n + length empties < MAX_CONSECUTIVE_EMPTY ->
  rows_loop vcs (empties ++ rest) n results
  = rows_loop vcs rest (n + length empties) results.
Proof.
  revert n. induction empties as [|row empties IH]; intros n Hall Hlen; simpl in *.
  - by rewrite Nat.add_0_r.
  - inversion Hall as [|? ? Hrow Hall']; subst.
    rewrite (row_step_blank _ _ _ Hrow).
    destruct (MAX_CONSECUTIVE_EMPTY <=? S n) eqn:E.
    + apply Nat.leb_le in E. lia.
    + rewrite IH; [f_equal; lia|done|lia].
Qed.

(** A run of blank rows that reaches the threshold ends the loop. *)
Lemma rows_loop_blank_cut (empties rest : list Row) (n : nat)
    (results : list (gmap string value)) :
  Forall (fun row => first_blank firstCol row = true) empties ->
  MAX_CONSECUTIVE_EMPTY <= n + length empties ->
  n < MAX_CONSECUTIVE_EMPTY ->
  rows_loop vcs (empties ++ rest) n results = results.
Proof.
  revert n. induction empties as [|row empties IH]; intros n Hall Hlen Hn; simpl in *.
  - lia.
  - inversion Hall as [|? ? Hrow Hall']; subst.
    rewrite (row_step_blank _ _ _ Hrow).
    destruct (MAX_CONSECUTIVE_EMPTY <=? S n) eqn:E; [done|].
    apply Nat.leb_gt in E. apply IH; [done|lia|lia].
Qed.
End FirstColumn.

(** ** Valid columns *)

(** A column with a string label is valid exactly when the trimmed label
    is not empty; its position is recorded. *)
Lemma validCols_labelled (table_cols : list Col) (i : nat) (l : string) :
  table_cols !! i = Some {| col_label := Some l |} ->
  ({| label := Some (trim l); index := i |} ∈ validCols table_cols
   <-> trim l <> EmptyString).
Proof.
  intros Hi. unfold validCols.
  rewrite list_elem_of_In, filter_In, <- list_elem_of_In, elem_of_lookup_imap.
  unfold label_not_empty; simpl. split.
  - intros [_ H] E. by rewrite E in H.
  - intros H. split.
    + exists i, {| col_label := Some l |}. done.
    + by destruct (trim l).
Qed.

Lemma process_table_no_valid_cols (table : Table) :
  validCols (cols table) = [] -> process_table table = [].
Proof. unfold process_table. by intros ->. Qed.

(** ** Where the values of a record come from *)

Lemma foldl_col_step_from_cell (vcs todo : list ValidCol)
    (cells : list (option Cell)) (obj : gmap string value) :
  todo ⊆ vcs -> from_cell vcs cells obj ->
  from_cell vcs cells (foldl (col_step cells) obj todo).
Proof.
  revert obj. induction todo as [|col todo IH]; intros obj Hsub Hobj; simpl; [done|].
  apply IH; [set_solver|].
  unfold col_step. destruct (is_blank _) eqn:E; simpl; [done|].
  unfold set_property. destruct (String.eqb _ _); [done|].
  intros k x. destruct (decide (property_key (label col) = k)) as [<-|Hne].
  - rewrite lookup_insert_eq. intros [= <-]. split; [done|].
    exists col. split; [set_solver|done].
  - rewrite lookup_insert_ne by done. apply Hobj.
Qed.

Lemma build_obj_from_cell (vcs : list ValidCol) (cells : list (option Cell)) :
  from_cell vcs cells (build_obj vcs cells).
Proof.
  apply foldl_col_step_from_cell; [done|]. intros k x. by rewrite lookup_empty.
Qed.

(** Every record of the result is built from a row of the table. *)
Lemma rows_loop_from_rows (vcs : list ValidCol) (all_rows table_rows : list Row)
    (n : nat) (results : list (gmap string value)) (P : gmap string value -> Prop) :
  (forall row cells, row ∈ all_rows -> c row = Some cells -> P (build_obj vcs cells)) ->
  table_rows ⊆ all_rows ->
  Forall P results ->
  Forall P (rows_loop vcs table_rows n results).
Proof.
  intros HP. revert n results.
  induction table_rows as [|row rest IH]; intros n results Hsub Hres; simpl; [done|].
  unfold row_step. destruct (c row) as [cells|] eqn:Ec; [destruct vcs as [|firstCol others] eqn:Ev|].
  - apply IH; [set_solver|done].
  - destruct (is_blank _).
    + destruct (MAX_CONSECUTIVE_EMPTY <=? S n); [done|]. apply IH; [set_solver|done].
    + apply IH; [set_solver|]. apply Forall_app. split; [done|].
      constructor; [|done]. apply (HP row); [set_solver|done].
  - apply IH; [set_solver|done].
Qed.

(** ** The claims *)

(** C1. In the current JSON extractor, with [firstCol] the first valid
    column: a row whose first valid column is blank is skipped and adds
    one to the counter (the loop ends when the counter reaches 10); a row
    with data there sets the counter to zero and appends its record; nine
    blank rows followed by a row with data keep that row, and after ten
    blank rows no later row is read. *)
Theorem first_column_threshold (table_cols : list Col) (firstCol : ValidCol)
    (others : list ValidCol) :
  validCols table_cols = firstCol :: others ->
  let vcs := firstCol :: others in
  (forall row n results, first_blank firstCol row = true ->
     row_step vcs row n results
     = if 10 <=? S n then Break results else Next (S n) results)
  /\ (forall row cells n results,
        c row = Some cells -> first_data firstCol row = true ->
        row_step vcs row n results = Next 0 (results ++ [build_obj vcs cells]))
  /\ (forall empties row cells rest results,
        length empties = 9 ->
        Forall (fun r => first_blank firstCol r = true) empties ->
        c row = Some cells -> first_data firstCol row = true ->
        rows_loop vcs (empties ++ row :: rest) 0 results
        = rows_loop vcs rest 0 (results ++ [build_obj vcs cells])
        /\ process_table {| cols := table_cols; rows := empties ++ row :: rest |}
           = build_obj vcs cells
             :: process_table {| cols := table_cols; rows := rest |})
  /\ (forall empties rest results,
        length empties = 10 ->
        Forall (fun r => first_blank firstCol r = true) empties ->
        rows_loop vcs (empties ++ rest) 0 results = results
        /\ process_table {| cols := table_cols; rows := empties ++ rest |} = []).
Proof.
  intros Hv vcs. split; [|split; [|split]].
  - intros row n results Hb. by apply row_step_blank.
  - intros row cells n results Hc Hd. by apply row_step_data.
  - intros empties row cells rest results Hlen Hall Hc Hd.
    assert (Hrun : forall acc, rows_loop vcs (empties ++ row :: rest) 0 acc
                     = rows_loop vcs rest 0 (acc ++ [build_obj vcs cells])).
    { intros acc. unfold vcs. rewrite rows_loop_blank_run; [|done|].
      - simpl. by rewrite (row_step_data _ _ _ _ _ _ Hc Hd).
      - rewrite Hlen. unfold MAX_CONSECUTIVE_EMPTY. lia. }
    split; [apply Hrun|].
    unfold process_table; simpl. rewrite Hv; simpl.
    fold vcs. rewrite Hrun. simpl. by rewrite rows_loop_acc.
  - intros empties rest results Hlen Hall.
    assert (Hcut : forall acc, rows_loop vcs (empties ++ rest) 0 acc = acc).
    { intros acc. unfold vcs. apply rows_loop_blank_cut; [done| |].
      - rewrite Hlen. unfold MAX_CONSECUTIVE_EMPTY. lia.
      - unfold MAX_CONSECUTIVE_EMPTY. lia. }
    split; [apply Hcut|].
    unfold process_table; simpl. rewrite Hv; simpl. apply Hcut.
Qed.

Lemma first_column_threshold_witness :
  process_table {| cols := [ {| col_label := Some "A" |} ];
                   rows := replicate 9 blank_row ++ [data_row] |}
  = [ {[ "A" := Str "x" ]} ]
  /\ process_table {| cols := [ {| col_label := Some "A" |} ];
                      rows := replicate 10 blank_row ++ [data_row] |}
     = [].
Proof.
  destruct (first_column_threshold [ {| col_label := Some "A" |} ]
              {| label := Some "A"; index := 0 |} [] eq_refl)
    as (_ & _ & H9 & H10).
  split.
  - destruct (H9 (replicate 9 blank_row) data_row
                [Some {| v := Str "x"; f := Undefined |}] [] [] eq_refl
                ltac:(repeat constructor) eq_refl eq_refl) as [_ ->].
    reflexivity.
  - destruct (H10 (replicate 10 blank_row) [data_row] [] eq_refl
                ltac:(repeat constructor)) as [_ ->].
    reflexivity.
Defined.

(** C10. A row whose cell array is absent is skipped: it yields no record
    and leaves the counter as it is, so removing every such row from a
    table changes nothing in the result. *)
Theorem rows_without_cells_ignored (vcs : list ValidCol) (table_cols : list Col) :
  (forall n results, row_step vcs {| c := None |} n results = Next n results)
  /\ (forall table_rows n results,
        rows_loop vcs (List.filter has_cells table_rows) n results
        = rows_loop vcs table_rows n results)
  /\ (forall table_rows,
        process_table {| cols := table_cols; rows := List.filter has_cells table_rows |}
        = process_table {| cols := table_cols; rows := table_rows |}).
Proof.
  split; [|split].
  - apply row_step_no_cells.
  - apply rows_loop_filter_cells.
  - intros table_rows. unfold process_table; simpl.
    destruct (length _ =? 0); [done|]. apply rows_loop_filter_cells.
Qed.

(** C2. A column whose label is absent is kept as a valid column: its
    trimmed label is undefined, and undefined is not the empty string.
    Its cells are stored under the property name undefined. *)
Theorem unlabelled_column_is_kept :
  validCols [ {| col_label := None |} ] = [ {| label := None; index := 0 |} ]
  /\ process_table {| cols := [ {| col_label := None |} ]; rows := [data_row] |}
     = [ {[ "undefined" := Str "x" ]} ].
Proof. split; reflexivity. Qed.

End GvizFacts.

(* ===================================================================== *)
(** * Properties of the assembler                                         *)
(* ===================================================================== *)

Module AssemblerFacts.
Import Js Sheet Assembler.

(** ** The reporting quarter *)

Lemma ceil_div_spec (a b : Z) :
  (0 < b)%Z -> (b * (ceil_div a b - 1) < a <= b * ceil_div a b)%Z.
Proof.
  intros Hb. unfold ceil_div.
  pose proof (Z.div_mod (- a) b) as Hdm.
  pose proof (Z.mod_pos_bound (- a) b Hb). lia.
Qed.

Lemma pretty_four_digits (y : Z) :
  (1000 <= y <= 9999)%Z -> String.length (pretty y) = 4.
Proof.
  intros Hy. destruct y as [|p|p]; try lia.
  unfold pretty, pretty_Z, pretty, pretty_positive, pretty, pretty_N.
  destruct (decide (N.pos p = 0%N)) as [|_]; [lia|].
  rewrite pretty_N_go_step by lia.
  rewrite pretty_N_go_step by (apply N.div_str_pos; lia).
  rewrite pretty_N_go_step by (apply N.div_str_pos; split; [lia|];
    apply N.div_le_lower_bound; lia).
  rewrite pretty_N_go_step by (apply N.div_str_pos; split; [lia|];
    apply N.div_le_lower_bound; [lia|]; apply N.div_le_lower_bound; lia).
  replace ((((N.pos p `div` 10) `div` 10) `div` 10) `div` 10)%N with 0%N.
  - by rewrite pretty_N_go_0.
  - symmetry. rewrite !N.Div0.div_div. apply N.div_small. lia.
Qed.

Lemma pretty_quarter (q : Z) :
  (1 <= q <= 4)%Z -> String.length (pretty q) = 1.
Proof.
  intros Hq.
  assert (q = 1 \/ q = 2 \/ q = 3 \/ q = 4)%Z as [->|[->|[->| ->]]] by lia;
    reflexivity.
Qed.

Lemma append_length (s t : string) :
  String.length (s +:+ t) = String.length s + String.length t.
Proof.
  induction s as [|a s IH]; [done|].
  rewrite CsvFacts.append_cons. simpl. by rewrite IH.
Qed.

(** C6.  For a month index from 0 to 11 the quarter number is the ceiling
    of the month number, counted from 1, over 3: 1 for the months 1 to 3, 2
    for 4 to 6, 3 for 7 to 9 and 4 for 10 to 12, whatever the year.  The
    label is the year in decimal, four digits for a year from 1000 to 9999,
    then Q, then the quarter number. *)
Theorem quarter_of_month (now : Date) :
  (0 <= getMonth now <= 11)%Z ->
  let month := (getMonth now + 1)%Z in
  let q := quarterNumber now in
  (3 * (q - 1) < month <= 3 * q)%Z
  /\ ((1 <= month <= 3)%Z -> q = 1%Z)
  /\ ((4 <= month <= 6)%Z -> q = 2%Z)
  /\ ((7 <= month <= 9)%Z -> q = 3%Z)
  /\ ((10 <= month <= 12)%Z -> q = 4%Z)
  /\ reportingQuarter now = pretty (getFullYear now) +:+ "Q" +:+ pretty q
  /\ String.length (pretty q) = 1
  /\ ((1000 <= getFullYear now <= 9999)%Z ->
      String.length (pretty (getFullYear now)) = 4
      /\ String.length (reportingQuarter now) = 6).
Proof.
  intros Hm month q.
  pose proof (ceil_div_spec month 3 ltac:(lia)) as Hq. fold q in Hq.
  assert (Hq1 : String.length (pretty q) = 1).
  { apply pretty_quarter. subst month. unfold q, quarterNumber in *. lia. }
  repeat split; try (subst month; unfold q, quarterNumber in *; lia); try done.
  - by apply pretty_four_digits.
  - unfold reportingQuarter. fold q. rewrite !append_length, Hq1.
    rewrite pretty_four_digits by done. reflexivity.
Qed.

Lemma quarter_of_month_witness :
  quarterNumber {| getFullYear := 2024; getMonth := 8; toISOString := EmptyString |} = 3%Z
  /\ reportingQuarter {| getFullYear := 2024; getMonth := 8; toISOString := EmptyString |}
     = "2024Q3".
Proof.
  destruct (quarter_of_month
              {| getFullYear := 2024; getMonth := 8; toISOString := EmptyString |}
              ltac:(simpl; lia))
    as (_ & _ & _ & H3 & _ & Hlabel & _).
  split.
  - apply H3. simpl. lia.
  - rewrite Hlabel. reflexivity.
Defined.

(** ** All sheets or nothing *)

Lemma Promise_all_rejected {A} (promises : list (Exc A)) (e : Error) :
  Throw e ∈ promises -> exists e', Promise_all promises = Throw e'.
Proof.
  induction promises as [|p rest IH]; intros Hin; [by apply elem_of_nil in Hin|].
  apply elem_of_cons in Hin as [<-|Hin]; simpl; [by eexists|].
  destruct p as [e0|a]; [by eexists|].
  destruct (IH Hin) as [e' ->]. by eexists.
Qed.

Lemma Promise_all_fulfilled {A} (promises : list (Exc A)) (results : list A) :
  Promise_all promises = Ret results ->
  Forall2 (fun p a => p = Ret a) promises results.
Proof.
  revert results. induction promises as [|p rest IH]; intros results; simpl.
  - intros [= <-]. constructor.
  - destruct p as [e|a]; [done|].
    destruct (Promise_all rest) as [e|others]; [done|].
    intros [= <-]. constructor; [done|by apply IH].
Qed.

Lemma log_sizes_returns (sheetsData : list (list (gmap string value)))
    (indices : list nat) :
  Forall (fun i => i < length sheetsData) indices ->
  log_sizes sheetsData indices = Ret tt.
Proof.
  induction indices as [|i rest IH]; intros Hall; simpl; [done|].
  inversion Hall as [|? ? Hi Hall']; subst.
  apply lookup_lt_is_Some_2 in Hi as [data Hdata].
  rewrite (CsvFacts.bind_defined _ _ _ Hdata). by apply IH.
Qed.

Section MainFacts.
Variable encodeURIComponent : string -> string.
Variable match_wrapper : string -> option string.
Variable JSON_parse_table : string -> Exc Table.

#[local] Abbreviation fetchSheetData :=
  (fetchSheetData encodeURIComponent match_wrapper JSON_parse_table).
#[local] Abbreviation main :=
  (main encodeURIComponent match_wrapper JSON_parse_table).
#[local] Abbreviation fetch_fails :=
  (fetch_fails encodeURIComponent match_wrapper JSON_parse_table).

Lemma fetch_fails_throws (w : World) (SHEET_ID sheetName : string) :
  fetch_fails w SHEET_ID sheetName ->
  exists e, fetchSheetData w SHEET_ID sheetName = Throw e.
Proof.
  unfold Assembler.fetch_fails, Assembler.fetchSheetData, Gviz.fetchSheetData.
  destruct (fetch w _) as [e|response]; simpl; [by eexists|].
  intros [Hok|[Hm|(j & e & Hm & Hp)]].
  - rewrite Hok. by eexists.
  - destruct (Gviz.ok response); simpl; [|by eexists]. rewrite Hm. by eexists.
  - destruct (Gviz.ok response); simpl; [|by eexists]. rewrite Hm, Hp. by eexists.
Qed.

(** Once every sheet is there, only the file system can stop the write,
    and nothing after the write throws. *)
Lemma write_snapshot_cases (w : World) (SHEET_ID : string)
    (sheetsData : list (list (gmap string value))) :
  length sheetsData = length SHEET_NAMES ->
  let publicDir := path_join (cwd w) "public" in
  let outputPath := path_join publicDir "report-data.json" in
  let r := write_snapshot w SHEET_ID sheetsData in
  (r.2 = Ret tt
   /\ List.filter is_write r.1
      = [WriteFileSync outputPath (build_output SHEET_ID (now w) sheetsData)])
  \/ (r.2 = Throw FsError /\ List.filter is_write r.1 = []).
Proof.
  intros Hlen publicDir outputPath r. subst r. unfold write_snapshot.
  fold publicDir. fold outputPath.
  destruct (existsSync w publicDir); simpl.
  - destruct (writeFileSync_fails w); simpl; [by right|left].
    destruct sheetsData as [|d0 rest]; [done|]. split; [|done].
    apply (log_sizes_returns (d0 :: rest) (seq 0 (length SHEET_NAMES))).
    apply Forall_forall. intros i Hi%elem_of_seq. lia.
  - destruct (mkdirSync_fails w); simpl; [by right|].
    destruct (writeFileSync_fails w); simpl; [by right|left].
    destruct sheetsData as [|d0 rest]; [done|]. split; [|done].
    apply (log_sizes_returns (d0 :: rest) (seq 0 (length SHEET_NAMES))).
    apply Forall_forall. intros i Hi%elem_of_seq. lia.
Qed.

(** C7.  When the fetch of one of the seven sheets fails, the run ends
    with status 1 and has touched no file.  And every run either ends
    with status 0 after one write, of a snapshot that holds the result
    of each of the seven fetches, or ends with status 1 and has written
    nothing. *)
Theorem failed_fetch_writes_nothing (w : World) :
  (forall SHEET_ID sheetName,
     GOOGLE_SHEET_ID w = Some SHEET_ID ->
     sheetName ∈ SHEET_NAMES ->
     fetch_fails w SHEET_ID sheetName ->
     exitCode (main w) = 1%Z /\ effects (main w) = [])
  /\ ((exists SHEET_ID sheetsData,
         GOOGLE_SHEET_ID w = Some SHEET_ID
         /\ Forall2 (fun sheetName data =>
                       fetchSheetData w SHEET_ID sheetName = Ret data)
                    SHEET_NAMES sheetsData
         /\ writes (main w)
            = [WriteFileSync
                 (path_join (path_join (cwd w) "public") "report-data.json")
                 (build_output SHEET_ID (now w) sheetsData)]
         /\ exitCode (main w) = 0%Z)
      \/ (writes (main w) = [] /\ exitCode (main w) = 1%Z)).
Proof.
  split.
  - intros SHEET_ID sheetName Hid Hin Hfail. unfold Assembler.main. rewrite Hid.
    destruct (negb (truthy SHEET_ID)); [done|].
    destruct (fetch_fails_throws w SHEET_ID sheetName Hfail) as [e He].
    destruct (Promise_all_rejected
                (fetchSheetData w SHEET_ID <$> SHEET_NAMES) e) as [e' ->];
      [|done].
    rewrite <- He. by apply list_elem_of_fmap_2.
  - unfold writes, Assembler.main.
    destruct (GOOGLE_SHEET_ID w) as [SHEET_ID|]; [|by right].
    destruct (negb (truthy SHEET_ID)); [by right|].
    destruct (Promise_all _) as [e|sheetsData] eqn:Hall; [by right|].
    apply Promise_all_fulfilled, Forall2_fmap_l in Hall.
    assert (Hlen : length sheetsData = length SHEET_NAMES).
    { by apply Forall2_length in Hall. }
    destruct (write_snapshot_cases w SHEET_ID sheetsData Hlen) as [[Hr Hw]|[Hr Hw]];
      destruct (write_snapshot _ _ _) as [made [e|[]]];
      simpl in Hr, Hw; simpl; try done; [left|by right].
    by exists SHEET_ID, sheetsData.
Qed.
End MainFacts.

Lemma failed_fetch_writes_nothing_witness :
  let main := main (fun s => s) (fun _ => None) (fun _ => Throw SyntaxError) in
  exitCode (main failing_world) = 1%Z /\ effects (main failing_world) = [].
Proof.
  apply (proj1 (failed_fetch_writes_nothing (fun s => s) (fun _ => None)
                  (fun _ => Throw SyntaxError) failing_world)
           "sheet" "Top Rounds").
  - reflexivity.
  - unfold SHEET_NAMES. set_solver.
  - simpl. by left.
Defined.

End AssemblerFacts.

(* ===================================================================== *)
(** * What a record holds, across the three extractors                    *)
(* ===================================================================== *)

Module RecordFacts.
Import Js Sheet.

(** C5, as the claim has it, fails for the first JSON variant: it stores
    the empty string for a cell that is null. *)
Lemma legacy_record_holds_empty_string :
  exists obj,
    Legacy.process_table {| cols := [ {| col_label := Some "A" |} ];
                            rows := [ {| c := Some [None] |} ] |}
    = Ret [obj]
    /\ obj !! "A" = Some (Str EmptyString)
    /\ is_blank (Str EmptyString) = true.
Proof. exists {[ "A" := Str EmptyString ]}. repeat split. Qed.

(** C5, as the code has it.  In the current JSON extractor every record
    comes from a row of the table, and each of its values is the value of
    a cell of that row under a valid column, neither the empty string nor
    null nor undefined.  In the CSV extractor every record comes from a
    data line, and each of its values is the trimmed text of a field of
    that line, not empty, under the trimmed header of the same position. *)
Theorem records_hold_no_blank_value :
  (forall table obj,
     obj ∈ Gviz.process_table table ->
     exists row cells,
       row ∈ rows table /\ c row = Some cells
       /\ Gviz.from_cell (Gviz.validCols (cols table)) cells obj)
  /\ (forall csvText records obj,
        Csv.parseCSV csvText = Ret records ->
        obj ∈ records ->
        exists header_line i line,
          Csv.split_lines csvText !! 0 = Some header_line
          /\ 1 <= i /\ Csv.split_lines csvText !! i = Some line
          /\ Csv.from_fields (Csv.parseCSVRow header_line)
               (Csv.parseCSVRow line) obj).
Proof.
  split.
  - intros table obj Hin. unfold Gviz.process_table in Hin.
    destruct (length _ =? 0); [by apply elem_of_nil in Hin|].
    revert obj Hin. apply Forall_forall.
    apply (GvizFacts.rows_loop_from_rows _ (rows table)); [|done|constructor].
    intros row cells Hrow Hc. exists row, cells.
    split; [done|]. split; [done|]. apply GvizFacts.build_obj_from_cell.
  - intros csvText records obj Hparse Hin. unfold Csv.parseCSV in Hparse.
    destruct (length _ <? 2); [injection Hparse as <-; by apply elem_of_nil in Hin|].
    destruct (Csv.split_lines csvText !! 0) as [header_line|] eqn:Hh; [|done].
    simpl in Hparse. revert obj Hin. apply Forall_forall.
    eapply CsvFacts.rows_loop_from_lines; [|constructor|exact Hparse].
    intros i line Hline Hi%elem_of_seq. simpl.
    exists header_line, i, line. split; [done|]. split; [lia|]. split; [done|].
    apply CsvFacts.build_row_from_fields.
Qed.

Lemma records_hold_no_blank_value_witness :
  exists row cells,
    row ∈ [Gviz.data_row] /\ c row = Some cells
    /\ Gviz.from_cell (Gviz.validCols [ {| col_label := Some "A" |} ]) cells
         {[ "A" := Str "x" ]}.
Proof.
  apply (proj1 records_hold_no_blank_value
           {| cols := [ {| col_label := Some "A" |} ]; rows := [Gviz.data_row] |}).
  apply list_elem_of_In. left. reflexivity.
Defined.

End RecordFacts.

(* ===================================================================== *)
(** * More on the CSV extractor                                           *)
(* ===================================================================== *)

Module CsvMore.
Import Js Csv CsvAux CsvFacts.

(** ** Strings *)

Lemma append_assoc (s t u : string) : (s +:+ t) +:+ u = s +:+ (t +:+ u).
Proof.
  induction s as [|a s IH]; [done|]. by rewrite !append_cons, IH.
Qed.

Lemma push_char_eq (s : string) (ch : ascii) :
  push_char s ch = s +:+ String ch EmptyString.
Proof. reflexivity. Qed.

Lemma count_char_append (ch : ascii) (s t : string) :
  count_char ch (s +:+ t) = count_char ch s + count_char ch t.
Proof.
  induction s as [|a s IH]; [done|].
  rewrite append_cons. simpl. rewrite IH. lia.
Qed.

Lemma count_char_cons_0 (ch a : ascii) (s : string) :
  count_char ch (String a s) = 0 ->
  Ascii.eqb a ch = false /\ count_char ch s = 0.
Proof. simpl. destruct (Ascii.eqb a ch); [lia|done]. Qed.

(** ** The row splitter on lines without quotation marks *)

Lemma join_commas_snoc_append (values : list string) (current s : string) :
  join_commas (values ++ [current +:+ s]) = join_commas (values ++ [current]) +:+ s.
Proof.
  induction values as [|v values IH]; [done|].
  destruct values as [|v' values].
  - simpl. by rewrite append_assoc, append_cons.
  - change (v +:+ String comma (join_commas ((v' :: values) ++ [current +:+ s]))
            = (v +:+ String comma (join_commas ((v' :: values) ++ [current]))) +:+ s).
    by rewrite IH, append_assoc, append_cons.
Qed.

Lemma join_commas_snoc_empty (values : list string) (current : string) :
  join_commas ((values ++ [current]) ++ [EmptyString])
  = join_commas (values ++ [current]) +:+ String comma EmptyString.
Proof.
  induction values as [|v values IH]; [done|].
  destruct values as [|v' values].
  - simpl. by rewrite append_assoc, append_cons.
  - change (v +:+ String comma (join_commas (((v' :: values) ++ [current]) ++ [EmptyString]))
            = (v +:+ String comma (join_commas ((v' :: values) ++ [current])))
              +:+ String comma EmptyString).
    by rewrite IH, append_assoc, append_cons.
Qed.

Lemma parseCSVRow_loop_plain_join (row : string) :
  forall values current,
    count_char dquote row = 0 ->
    join_commas (parseCSVRow_loop row values current false)
    = join_commas (values ++ [current]) +:+ row
    /\ length (parseCSVRow_loop row values current false)
       = length values + 1 + count_char comma row.
Proof.
  induction row as [|char rest IH]; intros values current Hq.
  { simpl. rewrite append_empty_r, length_app. simpl. split; [done|lia]. }
  apply count_char_cons_0 in Hq as [Hchar Hq].
  cbn [parseCSVRow_loop count_char]. rewrite Hchar.
  destruct (Ascii.eqb char comma) eqn:Ec; simpl.
  - apply Ascii.eqb_eq in Ec as ->.
    destruct (IH (values ++ [current]) EmptyString Hq) as [-> ->].
    rewrite join_commas_snoc_empty, append_assoc, append_cons, length_app.
    simpl. split; [done|lia].
  - destruct (IH values (push_char current char) Hq) as [-> ->].
    rewrite push_char_eq, join_commas_snoc_append, append_assoc, append_cons.
    split; [done|lia].
Qed.

(** X1.  On a line without quotation marks the row splitter cuts at
    every comma and loses nothing: joining the fields with commas gives
    the line back, and there is one field more than there are commas. *)
Theorem parseCSVRow_plain_round_trip (row : string) :
  count_char dquote row = 0 ->
  join_commas (parseCSVRow row) = row
  /\ length (parseCSVRow row) = S (count_char comma row).
Proof.
  intros Hq. unfold parseCSVRow.
  destruct (parseCSVRow_loop_plain_join row [] EmptyString Hq) as [-> ->].
  split; [done|simpl; lia].
Qed.

Lemma parseCSVRow_plain_round_trip_witness :
  join_commas (parseCSVRow "a,,b") = "a,,b" /\ length (parseCSVRow "a,,b") = 3.
Proof. apply (parseCSVRow_plain_round_trip "a,,b"). reflexivity. Defined.

(** ** The row splitter and quoted fields *)

Lemma parseCSVRow_loop_front (row : string) :
  forall front values current inQuotes,
    parseCSVRow_loop row (front ++ values) current inQuotes
    = front ++ parseCSVRow_loop row values current inQuotes.
Proof.
  induction row as [row IH] using string_length_ind.
  intros front values current inQuotes.
  destruct row as [|char rest]; simpl; [by rewrite app_assoc|].
  destruct (Ascii.eqb char dquote).
  - destruct rest as [|next rest']; [simpl; by rewrite app_assoc|].
    destruct (inQuotes && Ascii.eqb next dquote); apply IH; simpl; lia.
  - destruct (Ascii.eqb char comma && negb inQuotes).
    + rewrite <- app_assoc. apply IH. simpl; lia.
    + apply IH. simpl; lia.
Qed.

Lemma parseCSVRow_loop_open (rest : string) (values : list string) (current : string) :
  parseCSVRow_loop (String dquote rest) values current false
  = parseCSVRow_loop rest values current true.
Proof. by destruct rest. Qed.

Lemma parseCSVRow_loop_close (char : ascii) (rest : string)
    (values : list string) (current : string) :
  Ascii.eqb char dquote = false ->
  parseCSVRow_loop (String dquote (String char rest)) values current true
  = parseCSVRow_loop (String char rest) values current false.
Proof. intros H. cbn [parseCSVRow_loop]. by rewrite H. Qed.

(** Inside quotes every character but the quotation mark is kept. *)
Lemma parseCSVRow_loop_in_quotes (field : string) :
  forall rest values current,
    count_char dquote field = 0 ->
    parseCSVRow_loop (field +:+ rest) values current true
    = parseCSVRow_loop rest values (current +:+ field) true.
Proof.
  induction field as [|char field IH]; intros rest values current Hq.
  { by rewrite append_empty_r. }
  apply count_char_cons_0 in Hq as [Hchar Hq].
  rewrite append_cons. cbn [parseCSVRow_loop]. rewrite Hchar, andb_false_r.
  rewrite IH by done. by rewrite push_char_append.
Qed.

(** Outside quotes every character but the mark and the comma is kept. *)
Lemma parseCSVRow_loop_plain (field : string) :
  forall rest values current,
    count_char dquote field = 0 -> count_char comma field = 0 ->
    parseCSVRow_loop (field +:+ rest) values current false
    = parseCSVRow_loop rest values (current +:+ field) false.
Proof.
  induction field as [|char field IH]; intros rest values current Hq Hc.
  { by rewrite append_empty_r. }
  apply count_char_cons_0 in Hq as [Hchar Hq].
  apply count_char_cons_0 in Hc as [Hcomma Hc].
  rewrite append_cons. cbn [parseCSVRow_loop]. rewrite Hchar, Hcomma. simpl.
  rewrite IH by done. by rewrite push_char_append.
Qed.

Lemma quoted_append (field rest : string) :
  quoted field +:+ rest = String dquote (field +:+ String dquote rest).
Proof. unfold quoted. by rewrite append_cons, push_char_append. Qed.

Lemma parseCSVRow_fields (field rest : string) :
  count_char dquote field = 0 ->
  (count_char comma field = 0 ->
   parseCSVRow (field +:+ String comma rest) = field :: parseCSVRow rest)
  /\ parseCSVRow (quoted field +:+ String comma rest) = field :: parseCSVRow rest
  /\ parseCSVRow (quoted field) = [field].
Proof.
  intros Hq. unfold parseCSVRow. split; [|split].
  - intros Hc. rewrite parseCSVRow_loop_plain by done.
    cbn [parseCSVRow_loop]. simpl.
    apply (parseCSVRow_loop_front rest [field] []).
  - rewrite quoted_append, parseCSVRow_loop_open.
    rewrite parseCSVRow_loop_in_quotes by done.
    rewrite parseCSVRow_loop_close by done.
    cbn [parseCSVRow_loop]. simpl.
    apply (parseCSVRow_loop_front rest [field] []).
  - unfold quoted. rewrite push_char_eq, parseCSVRow_loop_open.
    by rewrite parseCSVRow_loop_in_quotes.
Qed.

(** X2.  The first field of a line, for a field text without quotation
    marks: written plainly (and without a comma) or between quotation
    marks, and followed by a comma, it is split off as that text and the
    rest of the line is split on its own; a quoted field that is the whole
    line gives that text as the only field. *)
Theorem parseCSVRow_first_field (field rest : string) :
  count_char dquote field = 0 ->
  (count_char comma field = 0 ->
   parseCSVRow (field +:+ String comma rest) = field :: parseCSVRow rest)
  /\ parseCSVRow (quoted field +:+ String comma rest) = field :: parseCSVRow rest
  /\ parseCSVRow (quoted field) = [field].
Proof. apply parseCSVRow_fields. Qed.

Lemma parseCSVRow_first_field_witness :
  parseCSVRow (quoted "Top Industries, Tags" +:+ String comma "12")
  = ["Top Industries, Tags"; "12"].
Proof.
  apply (proj1 (proj2 (parseCSVRow_first_field "Top Industries, Tags" "12" eq_refl))).
Defined.

(** X3.  A quotation mark that is never closed takes the rest of the
    line, commas included, into one field. *)
Theorem parseCSVRow_unterminated_quote (row : string) :
  count_char dquote row = 0 ->
  parseCSVRow (String dquote row) = [row].
Proof.
  intros Hq. unfold parseCSVRow. rewrite parseCSVRow_loop_open.
  rewrite <- (append_empty_r row) at 1.
  by rewrite parseCSVRow_loop_in_quotes.
Qed.

Lemma parseCSVRow_unterminated_quote_witness :
  parseCSVRow (String dquote "a,b,c") = ["a,b,c"].
Proof. apply (parseCSVRow_unterminated_quote "a,b,c"). reflexivity. Defined.

(** ** The line tokenizer *)

Lemma truthy_not_blank (line : string) : truthy (trim line) = true -> not_blank line.
Proof. unfold not_blank. by destruct (trim line). Qed.

Lemma lines_loop_not_blank (csvText : string) :
  forall lines currentLine inQuotes,
    Forall not_blank lines ->
    Forall not_blank (lines_loop csvText lines currentLine inQuotes).1.
Proof.
  induction csvText as [csvText IH] using string_length_ind.
  intros lines currentLine inQuotes Hall.
  destruct csvText as [|char rest]; [done|].
  cbn [lines_loop].
  destruct (Ascii.eqb char dquote).
  - destruct rest as [|next rest']; [done|].
    destruct (inQuotes && Ascii.eqb next dquote); apply IH; simpl; first [lia|done].
  - destruct (Ascii.eqb char LF && negb inQuotes).
    + apply IH; [simpl; lia|].
      destruct (truthy (trim currentLine)) eqn:E; [|done].
      apply Forall_app. split; [done|]. constructor; [|done].
      by apply truthy_not_blank.
    + destruct (Ascii.eqb char CR && negb inQuotes); apply IH; simpl; first [lia|done].
Qed.

(** X4.  No line the tokenizer hands on is blank: every line has a
    character left after trimming. *)
Theorem split_lines_not_blank (csvText : string) :
  Forall (fun line => trim line <> EmptyString) (split_lines csvText).
Proof.
  unfold split_lines.
  pose proof (lines_loop_not_blank csvText [] EmptyString false ltac:(constructor)) as H.
  destruct (lines_loop csvText [] EmptyString false) as [lines currentLine].
  simpl in H. destruct (truthy (trim currentLine)) eqn:E; [|done].
  apply Forall_app. split; [done|]. constructor; [|done].
  by apply truthy_not_blank.
Qed.

(** Outside quotes a carriage return leaves no trace. *)
Lemma lines_loop_drop_CR (csvText : string) :
  forall lines currentLine,
    count_char dquote csvText = 0 ->
    lines_loop (drop_CR csvText) lines currentLine false
    = lines_loop csvText lines currentLine false.
Proof.
  induction csvText as [|char rest IH]; intros lines currentLine Hq; [done|].
  apply count_char_cons_0 in Hq as [Hchar Hq].
  cbn [drop_CR lines_loop]. rewrite Hchar.
  destruct (Ascii.eqb char CR) eqn:Ecr.
  - apply Ascii.eqb_eq in Ecr as ->. simpl. by apply IH.
  - cbn [lines_loop]. rewrite Hchar, Ecr. simpl.
    destruct (Ascii.eqb char LF); simpl; by apply IH.
Qed.

(** X5.  In a text without quotation marks the carriage returns make no
    difference: the lines and the records are those of the text without
    them. *)
Theorem parseCSV_ignores_CR (csvText : string) :
  count_char dquote csvText = 0 ->
  split_lines (drop_CR csvText) = split_lines csvText
  /\ parseCSV (drop_CR csvText) = parseCSV csvText.
Proof.
  intros Hq.
  assert (H : split_lines (drop_CR csvText) = split_lines csvText).
  { unfold split_lines. by rewrite lines_loop_drop_CR. }
  split; [done|]. unfold parseCSV. by rewrite H.
Qed.

Lemma parseCSV_ignores_CR_witness :
  parseCSV ("Name,Value" +:+ String LF "Foo,1")
  = parseCSV ("Name,Value" +:+ String CR (String LF ("Foo,1" +:+ String CR (String LF EmptyString)))).
Proof.
  apply (proj2 (parseCSV_ignores_CR
    ("Name,Value" +:+ String CR (String LF ("Foo,1" +:+ String CR (String LF EmptyString))))
    eq_refl)).
Defined.

(** Inside quotes the tokenizer keeps every character but the mark, line
    breaks included. *)
Lemma lines_loop_in_quotes (field : string) :
  forall rest lines currentLine,
    count_char dquote field = 0 ->
    lines_loop (field +:+ rest) lines currentLine true
    = lines_loop rest lines (currentLine +:+ field) true.
Proof.
  induction field as [|char field IH]; intros rest lines currentLine Hq.
  { by rewrite append_empty_r. }
  apply count_char_cons_0 in Hq as [Hchar Hq].
  rewrite append_cons. cbn [lines_loop]. rewrite Hchar, !andb_false_r.
  rewrite IH by done. by rewrite push_char_append.
Qed.

(** Outside quotes it keeps every character but the mark, the line feed
    and the carriage return. *)
Lemma lines_loop_plain (line : string) :
  forall rest lines currentLine,
    count_char dquote line = 0 -> count_char LF line = 0 -> count_char CR line = 0 ->
    lines_loop (line +:+ rest) lines currentLine false
    = lines_loop rest lines (currentLine +:+ line) false.
Proof.
  induction line as [|char line IH]; intros rest lines currentLine Hq Hlf Hcr.
  { by rewrite append_empty_r. }
  apply count_char_cons_0 in Hq as [Hchar Hq].
  apply count_char_cons_0 in Hlf as [Hl Hlf].
  apply count_char_cons_0 in Hcr as [Hc Hcr].
  rewrite append_cons. cbn [lines_loop]. rewrite Hchar, Hl, Hc. simpl.
  rewrite IH by done. by rewrite push_char_append.
Qed.

Lemma lines_loop_open (rest : string) (lines : list string) (currentLine : string) :
  lines_loop (String dquote rest) lines currentLine false
  = lines_loop rest lines (push_char currentLine dquote) true.
Proof. by destruct rest. Qed.

Lemma lines_loop_LF (rest : string) (lines : list string) (currentLine : string) :
  lines_loop (String LF rest) lines currentLine false
  = lines_loop rest
      (if truthy (trim currentLine) then lines ++ [currentLine] else lines)
      EmptyString false.
Proof. reflexivity. Qed.

Lemma lines_loop_close_end (lines : list string) (currentLine : string) :
  lines_loop (String dquote EmptyString) lines currentLine true
  = (lines, push_char currentLine dquote).
Proof. reflexivity. Qed.

Lemma append_empty_l (s : string) : EmptyString +:+ s = s.
Proof. reflexivity. Qed.

Lemma trim_quoted_not_empty (field : string) : truthy (trim (quoted field)) = true.
Proof.
  unfold quoted, trim. cbn [trimStart]. replace (is_ws dquote) with false by done.
  cbn [trimEnd]. by destruct (trimEnd _).
Qed.

(** X6.  A line break inside a quoted field does not end the line: a
    header line followed by one quoted field gives two lines, the second
    being the field with its marks, and the row splitter gives back the
    text of the field, line breaks included. *)
Theorem quoted_line_break_kept (header field : string) :
  count_char dquote header = 0 -> count_char LF header = 0 ->
  count_char CR header = 0 -> trim header <> EmptyString ->
  count_char dquote field = 0 ->
  split_lines (header +:+ String LF (quoted field)) = [header; quoted field]
  /\ parseCSVRow (quoted field) = [field].
Proof.
  intros Hq Hlf Hcr Hne Hf. split.
  - assert (Ht : truthy (trim header) = true) by (by destruct (trim header)).
    unfold split_lines.
    rewrite lines_loop_plain, append_empty_l, lines_loop_LF, Ht by done.
    unfold quoted at 1. rewrite lines_loop_open, push_char_eq.
    rewrite lines_loop_in_quotes by done.
    rewrite lines_loop_close_end.
    change (push_char (push_char EmptyString dquote +:+ field) dquote)
      with (quoted field).
    by rewrite trim_quoted_not_empty.
  - by apply parseCSVRow_fields.
Qed.

Lemma quoted_line_break_kept_witness :
  split_lines ("Name" +:+ String LF (quoted ("one," +:+ String LF "two")))
  = ["Name"; quoted ("one," +:+ String LF "two")]
  /\ parseCSVRow (quoted ("one," +:+ String LF "two")) = ["one," +:+ String LF "two"].
Proof.
  apply (quoted_line_break_kept "Name" ("one," +:+ String LF "two"));
    first [reflexivity | discriminate].
Defined.

(** ** Which lines give a record *)

Lemma truthy_true (s : string) : truthy s = true <-> s <> EmptyString.
Proof. by destruct s. Qed.

Lemma is_empty_string_false (s : string) :
  negb (is_empty_string s) = true <-> s <> EmptyString.
Proof. by destruct s. Qed.

(** The test of one turn of the inner loop. *)
Lemma field_step_filled (headers values : list string)
    (st : gmap string string * bool) (j : nat) :
  (filled headers values j ->
   exists h val, headers !! j = Some h /\ values !! j = Some val
     /\ field_step headers values st j = (set_property (trim h) (trim val) st.1, true))
  /\ (~ filled headers values j -> field_step headers values st j = st).
Proof.
  unfold filled, field_step. split.
  - intros (h & val & Hh & Hv & Hth & Htv). exists h, val.
    rewrite Hh, Hv. simpl.
    apply truthy_true in Hth. apply is_empty_string_false in Htv.
    by rewrite Hth, Htv.
  - intros Hnot. destruct (headers !! j) as [h|]; simpl; [|done].
    destruct (truthy (trim h) && negb (is_empty_string _)) eqn:E; [|done].
    apply andb_true_iff in E as [Eh Ev]. exfalso. apply Hnot.
    destruct (values !! j) as [val|]; simpl in Ev; [|done].
    exists h, val. by rewrite <- truthy_true, <- is_empty_string_false.
Qed.

Lemma filled_dec (headers values : list string) (j : nat) :
  filled headers values j \/ ~ filled headers values j.
Proof.
  unfold filled.
  destruct (headers !! j) as [h|]; [|right; by intros (? & ? & ? & _)].
  destruct (values !! j) as [val|]; [|right; by intros (? & ? & _ & ? & _)].
  destruct (decide (trim h = EmptyString)) as [Eh|Eh];
    [right; intros (? & ? & [= <-] & [= <-] & ? & ?); done|].
  destruct (decide (trim val = EmptyString)) as [Ev|Ev];
    [right; intros (? & ? & [= <-] & [= <-] & ? & ?); done|].
  left. by exists h, val.
Qed.

Lemma foldl_field_step_flag (headers values : list string) (js : list nat) :
  forall st,
    (foldl (field_step headers values) st js).2 = true
    <-> st.2 = true \/ exists j, j ∈ js /\ filled headers values j.
Proof.
  induction js as [|j js IH]; intros st; simpl.
  { split; [by left|]. intros [H|(j & Hj & _)]; [done|by apply elem_of_nil in Hj]. }
  rewrite IH. destruct (field_step_filled headers values st j) as [Hyes Hno].
  destruct (filled_dec headers values j) as [Hf|Hf].
  - destruct (Hyes Hf) as (h & val & _ & _ & ->). simpl. split.
    + intros _. right. exists j. split; [by apply list_elem_of_here|done].
    + by left.
  - rewrite (Hno Hf). split.
    + intros [H|(j' & Hj' & Hf')]; [by left|]. right. exists j'.
      split; [by apply list_elem_of_further|done].
    + intros [H|(j' & Hj' & Hf')]; [by left|]. right. exists j'. split; [|done].
      apply elem_of_cons in Hj' as [->|Hj']; done.
Qed.

Lemma build_row_flag (headers values : list string) :
  (build_row headers values).2 = true
  <-> exists j h val,
        headers !! j = Some h /\ values !! j = Some val
        /\ trim h <> EmptyString /\ trim val <> EmptyString.
Proof.
  unfold build_row. rewrite foldl_field_step_flag. simpl. split.
  - intros [H|(j & _ & h & val & H)]; [done|]. by exists j, h, val.
  - intros (j & h & val & Hh & Hv & H). right. exists j. split.
    + apply elem_of_seq. apply lookup_lt_Some in Hh. lia.
    + by exists h, val.
Qed.

(** The first test of the loop body changes nothing: a line without data
    has no filled position. *)
Lemma hasData_of_row_kept (headers values : list string) :
  (build_row headers values).2 = true -> hasData values = true.
Proof.
  intros (j & h & val & _ & Hv & _ & Hval)%build_row_flag.
  unfold hasData. apply existsb_exists. exists val. split.
  - apply list_elem_of_In. by apply list_elem_of_lookup_2 in Hv.
  - by apply truthy_true.
Qed.

Lemma rows_loop_closed_form (headers : list string) (data : list string) :
  forall front results,
    rows_loop headers (front ++ data) (seq (length front) (length data)) results
    = Ret (results ++ omap (line_record headers) data).
Proof.
  induction data as [|line data IH]; intros front results.
  { simpl. by rewrite app_nil_r. }
  cbn [length seq rows_loop].
  rewrite (bind_defined _ line) by (by apply list_lookup_middle).
  replace (front ++ line :: data) with ((front ++ [line]) ++ data)
    by (by rewrite <- app_assoc).
  replace (S (length front)) with (length (front ++ [line]))
    by (rewrite length_app; simpl; lia).
  change (omap (line_record headers) (line :: data))
    with (match line_record headers line with
          | Some obj => obj :: omap (line_record headers) data
          | None => omap (line_record headers) data
          end).
  unfold line_record at 1.
  destruct (build_row headers (parseCSVRow line)) as [obj rowHasData] eqn:Eb.
  destruct (hasData (parseCSVRow line)) eqn:Eh; cbn [negb].
  - destruct rowHasData; rewrite IH; [|done]. by rewrite <- app_assoc.
  - destruct rowHasData; [|by rewrite IH].
    pose proof (hasData_of_row_kept headers (parseCSVRow line)) as H.
    rewrite Eb in H. simpl in H. rewrite H in Eh; done.
Qed.

Lemma parseCSV_omap (csvText : string) :
  parseCSV csvText
  = Ret match split_lines csvText with
        | [] => []
        | header_line :: data =>
            omap (line_record (parseCSVRow header_line)) data
        end.
Proof.
  unfold parseCSV. destruct (split_lines csvText) as [|header_line data]; [done|].
  destruct data as [|line data]; [done|].
  change (length (header_line :: line :: data) <? 2) with false.
  cbn [negb]. rewrite (bind_defined _ header_line) by done.
  replace (length (header_line :: line :: data) - 1) with (length (line :: data))
    by (simpl; lia).
  apply (rows_loop_closed_form _ (line :: data) [header_line] []).
Qed.

(** X7.  A data line gives a record exactly when, at some position, it
    has a value that is not blank under a header that is not blank. *)
Theorem row_kept_iff_filled (headers values : list string) :
  (build_row headers values).2 = true
  <-> exists j h val,
        headers !! j = Some h /\ values !! j = Some val
        /\ trim h <> EmptyString /\ trim val <> EmptyString.
Proof. apply build_row_flag. Qed.

(** X8.  parseCSV returns, in the order of the text, the records of the
    data lines that give one; the first line that is not blank is the
    header line, and a text of at most one such line gives no record. *)
Theorem parseCSV_closed_form (csvText : string) :
  parseCSV csvText
  = Ret match split_lines csvText with
        | [] => []
        | header_line :: data =>
            omap (line_record (parseCSVRow header_line)) data
        end.
Proof. apply parseCSV_omap. Qed.

(** ** Which value a key holds *)

Lemma set_property_lookup_ne {V} (k k' : string) (x : V) (obj : gmap string V) :
  k <> k' -> set_property k x obj !! k' = obj !! k'.
Proof.
  intros Hne. unfold set_property. destruct (String.eqb k _); [done|].
  by rewrite lookup_insert_ne.
Qed.

Lemma set_property_lookup_eq {V} (k : string) (x : V) (obj : gmap string V) :
  k <> "__proto__" -> set_property k x obj !! k = Some x.
Proof.
  intros Hne. unfold set_property.
  destruct (String.eqb_spec k "__proto__"); [done|]. by rewrite lookup_insert_eq.
Qed.

Lemma set_property_not_empty {V} (k : string) (x : V) (obj : gmap string V) :
  k <> "__proto__" -> set_property k x obj <> ∅.
Proof.
  intros Hne E. apply (f_equal (fun m => m !! k)) in E.
  by rewrite set_property_lookup_eq, lookup_empty in E.
Qed.

Lemma set_property_keeps_not_empty {V} (k : string) (x : V) (obj : gmap string V) :
  obj <> ∅ -> set_property k x obj <> ∅.
Proof.
  intros Hne. unfold set_property. destruct (String.eqb k _); [done|].
  apply insert_non_empty.
Qed.

(** A key set at one position keeps its value through the positions at
    which it is not set again. *)
Lemma foldl_field_step_keeps (headers values : list string) (k x : string)
    (js : list nat) :
  forall st,
    st.1 !! k = Some x ->
    (forall j h val, j ∈ js -> headers !! j = Some h -> values !! j = Some val ->
       trim h = k -> trim val = EmptyString) ->
    (foldl (field_step headers values) st js).1 !! k = Some x.
Proof.
  induction js as [|j js IH]; intros st Hst Hlater; simpl; [done|].
  apply IH.
  - destruct (field_step_filled headers values st j) as [Hyes Hno].
    destruct (filled_dec headers values j) as [Hf|Hf]; [|by rewrite (Hno Hf)].
    destruct (Hyes Hf) as (h & val & Hh & Hv & ->). simpl.
    destruct Hf as (h' & val' & Hh' & Hv' & _ & Hne).
    rewrite Hh in Hh'. rewrite Hv in Hv'. injection Hh' as <-. injection Hv' as <-.
    rewrite set_property_lookup_ne; [done|].
    intros Ek. apply Hne. apply (Hlater j h val); [by apply list_elem_of_here|done..].
  - intros j' h val Hj'. apply Hlater. by apply list_elem_of_further.
Qed.

(** X9.  When several columns carry the same header, the last one whose
    value is not blank gives the value of the key. *)
Theorem last_column_of_a_name_wins (headers values : list string)
    (j : nat) (h val : string) :
  headers !! j = Some h -> values !! j = Some val ->
  trim h <> EmptyString -> trim val <> EmptyString ->
  trim h <> "__proto__" ->
  (forall j' h' val', j < j' -> headers !! j' = Some h' -> values !! j' = Some val' ->
     trim h' = trim h -> trim val' = EmptyString) ->
  (build_row headers values).1 !! trim h = Some (trim val).
Proof.
  intros Hh Hv Hth Htv Hproto Hlater. unfold build_row.
  pose proof (lookup_lt_Some _ _ _ Hh) as Hj.
  replace (length headers) with (j + S (length headers - S j)) by lia.
  rewrite seq_app, foldl_app. change (0 + j) with j. cbn [seq foldl].
  apply foldl_field_step_keeps.
  - destruct (field_step_filled headers values
                (foldl (field_step headers values) (∅, false) (seq 0 j)) j) as [Hyes _].
    destruct Hyes as (h' & val' & Hh' & Hv' & ->); [by exists h, val|].
    rewrite Hh in Hh'. rewrite Hv in Hv'. injection Hh' as <-. injection Hv' as <-.
    simpl. by apply set_property_lookup_eq.
  - intros j' h' val' Hj'%elem_of_seq. apply Hlater. lia.
Qed.

Lemma last_column_of_a_name_wins_witness :
  (build_row ["Name"; "Value"; "Name"] ["first"; "1"; "second"]).1 !! "Name"
  = Some "second".
Proof.
  apply (last_column_of_a_name_wins ["Name"; "Value"; "Name"]
           ["first"; "1"; "second"] 2 "Name" "second");
    try done.
  intros j' h' val' Hlt Hh'. apply lookup_lt_Some in Hh'. simpl in Hh'. lia.
Defined.

(** ** Lines with too many or too few fields *)

Lemma foldl_field_step_ext (headers values headers' values' : list string)
    (js : list nat) :
  (forall j, j ∈ js -> forall st,
     field_step headers values st j = field_step headers' values' st j) ->
  forall st,
    foldl (field_step headers values) st js
    = foldl (field_step headers' values') st js.
Proof.
  induction js as [|j js IH]; intros Hext st; simpl; [done|].
  rewrite Hext by (by apply list_elem_of_here).
  apply IH. intros j' Hj'. apply Hext. by apply list_elem_of_further.
Qed.

Lemma foldl_field_step_id (headers values : list string) (js : list nat) :
  (forall j, j ∈ js -> ~ filled headers values j) ->
  forall st, foldl (field_step headers values) st js = st.
Proof.
  induction js as [|j js IH]; intros Hno st; simpl; [done|].
  destruct (field_step_filled headers values st j) as [_ Hid].
  rewrite Hid by (apply Hno; by apply list_elem_of_here).
  apply IH. intros j' Hj'. apply Hno. by apply list_elem_of_further.
Qed.

(** X10.  Fields beyond the last header are ignored, and headers beyond
    the last field add nothing. *)
Theorem ragged_line (headers values extra : list string) :
  (length headers <= length values ->
   build_row headers (values ++ extra) = build_row headers values)
  /\ (length values <= length headers ->
      build_row (headers ++ extra) values = build_row headers values).
Proof.
  split; intros Hlen; unfold build_row.
  - apply foldl_field_step_ext. intros j Hj%elem_of_seq st.
    unfold field_step. by rewrite lookup_app_l by lia.
  - rewrite length_app, seq_app, foldl_app. simpl.
    rewrite foldl_field_step_id.
    + apply foldl_field_step_ext. intros j Hj%elem_of_seq st.
      unfold field_step. by rewrite lookup_app_l by lia.
    + intros j Hj%elem_of_seq (h & val & _ & Hv & _).
      apply lookup_lt_Some in Hv. lia.
Qed.

Lemma ragged_line_witness :
  build_row ["Name"; "Value"] (["Foo"; "1"] ++ ["stray"; "fields"])
  = build_row ["Name"; "Value"] ["Foo"; "1"].
Proof.
  apply (proj1 (ragged_line ["Name"; "Value"] ["Foo"; "1"] ["stray"; "fields"])).
  simpl. lia.
Defined.

(** ** Records are not empty *)

Lemma foldl_field_step_not_empty (headers values : list string) (js : list nat) :
  Forall (fun h => trim h <> "__proto__") headers ->
  forall st,
    (st.2 = true -> st.1 <> ∅) ->
    (foldl (field_step headers values) st js).2 = true ->
    (foldl (field_step headers values) st js).1 <> ∅.
Proof.
  intros Hproto. induction js as [|j js IH]; intros st Hst; simpl; [done|].
  apply IH.
  destruct (field_step_filled headers values st j) as [Hyes Hno].
  destruct (filled_dec headers values j) as [Hf|Hf]; [|by rewrite (Hno Hf)].
  destruct (Hyes Hf) as (h & val & Hh & _ & ->). simpl. intros _.
  apply set_property_not_empty.
  rewrite Forall_forall in Hproto. apply Hproto.
  by apply list_elem_of_lookup_2 in Hh.
Qed.

(** X11.  When no header is the name __proto__, every record parseCSV
    returns has at least one key. *)
Theorem parseCSV_records_not_empty (csvText header_line : string)
    (records : list (gmap string string)) :
  parseCSV csvText = Ret records ->
  split_lines csvText !! 0 = Some header_line ->
  Forall (fun h => trim h <> "__proto__") (parseCSVRow header_line) ->
  Forall (fun obj => obj <> ∅) records.
Proof.
  rewrite parseCSV_omap. intros [= <-] Hh Hproto.
  destruct (split_lines csvText) as [|header_line' data]; [done|].
  injection Hh as ->. apply Forall_forall. intros obj Hin.
  apply list_elem_of_omap in Hin as (line & _ & Hrec).
  unfold line_record in Hrec.
  pose proof (foldl_field_step_not_empty (parseCSVRow header_line)
                (parseCSVRow line) (seq 0 (length (parseCSVRow header_line)))
                Hproto (∅, false) ltac:(done)) as Hne.
  fold (build_row (parseCSVRow header_line) (parseCSVRow line)) in Hne.
  destruct (build_row _ _) as [obj' [|]]; [|done].
  injection Hrec as <-. by apply Hne.
Qed.

Lemma parseCSV_records_not_empty_witness :
  Forall (fun obj : gmap string string => obj <> ∅)
    [ {[ "Name" := "Foo"; "Value" := "1" ]} ].
Proof.
  apply (parseCSV_records_not_empty
           ("Name,Value" +:+ String LF ("Foo,1" +:+ String LF ","))
           "Name,Value").
  - vm_compute. reflexivity.
  - reflexivity.
  - repeat constructor; discriminate.
Defined.

End CsvMore.
(* ===================================================================== *)
(** * More on the current JSON extractor                                  *)
(* ===================================================================== *)

Module GvizMore.
Import Js Sheet Gviz GvizAux GvizFacts.

(** ** Valid columns *)

Lemma list_filter_sublist {A} (p : A -> bool) (l : list A) :
  List.filter p l `sublist_of` l.
Proof.
  induction l as [|x l IH]; simpl; [done|].
  destruct (p x); [by apply sublist_skip|by apply sublist_cons].
Qed.

Lemma validCols_elem (table_cols : list Col) (vc : ValidCol) :
  vc ∈ validCols table_cols
  <-> exists col, table_cols !! index vc = Some col
                  /\ label vc = trim <$> col_label col
                  /\ label vc <> Some EmptyString.
Proof.
  unfold validCols.
  rewrite list_elem_of_In, filter_In, <- list_elem_of_In, elem_of_lookup_imap.
  unfold label_not_empty. split.
  - intros [(i & col & -> & Hi) Hl]. simpl in *. exists col.
    split; [done|]. split; [done|]. intros E. by rewrite E in Hl.
  - intros (col & Hi & Hl & Hne). split.
    + exists (index vc), col. split; [|done]. destruct vc as [l i]. simpl in *. by subst.
    + destruct (label vc) as [[|]|]; done.
Qed.

Lemma index_imap (table_cols : list Col) :
  index <$> imap (fun i col => {| label := trim <$> col_label col; index := i |})
              table_cols
  = seq 0 (length table_cols).
Proof.
  apply list_eq. intros i. rewrite list_lookup_fmap, list_lookup_imap.
  destruct (table_cols !! i) as [col|] eqn:E; simpl; symmetry.
  - apply lookup_seq. split; [done|]. by apply lookup_lt_Some in E.
  - apply lookup_seq_ge. apply lookup_ge_None in E. lia.
Qed.

(** X12.  The valid columns keep the order of the table and their
    positions in it; a pair of label and position is a valid column
    exactly when the column at that position has that trimmed label and
    the label is not the empty string. *)
Theorem validCols_in_order (table_cols : list Col) :
  (index <$> validCols table_cols) `sublist_of` seq 0 (length table_cols)
  /\ (forall vc, vc ∈ validCols table_cols
        <-> exists col, table_cols !! index vc = Some col
                        /\ label vc = trim <$> col_label col
                        /\ label vc <> Some EmptyString).
Proof.
  split; [|apply validCols_elem].
  unfold validCols.
  etrans; [apply fmap_sublist, list_filter_sublist|].
  by rewrite index_imap.
Qed.

(** ** The result as a prefix of the records of the rows *)

Lemma row_step_record (vcs : list ValidCol) (row : Row) (n : nat)
    (results : list (gmap string value)) :
  match row_step vcs row n results with
  | Next _ results' => results' = results ++ omap (row_record vcs) [row]
  | Break results' => results' = results
  end.
Proof.
  unfold row_step, row_record. cbn [omap list_omap].
  destruct (c row) as [cells|]; [|by rewrite app_nil_r].
  destruct vcs as [|firstCol others]; [by rewrite app_nil_r|].
  destruct (is_blank _); [|done].
  destruct (MAX_CONSECUTIVE_EMPTY <=? S n); [done|by rewrite app_nil_r].
Qed.

Lemma rows_loop_take (vcs : list ValidCol) (table_rows : list Row) :
  forall n results,
    exists k, rows_loop vcs table_rows n results
              = results ++ omap (row_record vcs) (take k table_rows).
Proof.
  induction table_rows as [|row rest IH]; intros n results.
  { exists 0. simpl. by rewrite app_nil_r. }
  cbn [rows_loop]. pose proof (row_step_record vcs row n results) as Hstep.
  destruct (row_step vcs row n results) as [n' results'|results'].
  - destruct (IH n' results') as [k ->]. exists (S k). subst results'.
    rewrite <- app_assoc. f_equal.
    change (take (S k) (row :: rest)) with ([row] ++ take k rest).
    by rewrite omap_app.
  - exists 0. subst results'. simpl. by rewrite app_nil_r.
Qed.

Lemma process_table_take (table : Table) :
  exists k, process_table table
            = omap (row_record (validCols (cols table))) (take k (rows table)).
Proof.
  unfold process_table. destruct (length _ =? 0); [by exists 0|].
  destruct (rows_loop_take (validCols (cols table)) (rows table) 0 []) as [k ->].
  by exists k.
Qed.

Lemma omap_length_le {A B} (f : A -> option B) (l : list A) :
  length (omap f l) <= length l.
Proof.
  induction l as [|x l IH]; [done|]. cbn [omap list_omap].
  destruct (f x); simpl; lia.
Qed.

(** X13.  The result is a prefix of the list of the records of the rows
    whose first valid column holds data, in the order of the rows; it has
    no more records than the table has rows. *)
Theorem process_table_prefix (table : Table) :
  process_table table
  `prefix_of` omap (row_record (validCols (cols table))) (rows table)
  /\ length (process_table table) <= length (rows table).
Proof.
  destruct (process_table_take table) as [k ->]. split.
  - rewrite <- (take_drop k (rows table)) at 2. rewrite omap_app.
    by apply prefix_app_r.
  - etrans; [apply omap_length_le|]. rewrite length_take. lia.
Qed.

(** ** Fewer than ten blank rows: nothing is cut *)

Lemma rows_loop_few_blanks (firstCol : ValidCol) (others : list ValidCol)
    (table_rows : list Row) :
  forall n results,
    n + length (List.filter (first_blank firstCol) table_rows)
      < MAX_CONSECUTIVE_EMPTY ->
    rows_loop (firstCol :: others) table_rows n results
    = results ++ omap (row_record (firstCol :: others)) table_rows.
Proof.
  induction table_rows as [|row rest IH]; intros n results Hlt.
  { simpl. by rewrite app_nil_r. }
  cbn [rows_loop]. cbn [List.filter] in Hlt.
  change (omap (row_record (firstCol :: others)) (row :: rest))
    with (match row_record (firstCol :: others) row with
          | Some obj => obj :: omap (row_record (firstCol :: others)) rest
          | None => omap (row_record (firstCol :: others)) rest
          end).
  unfold row_step, row_record, first_blank in *.
  destruct (c row) as [cells|].
  - destruct (is_blank _).
    + cbn [length] in Hlt. destruct (MAX_CONSECUTIVE_EMPTY <=? S n) eqn:E.
      { apply Nat.leb_le in E. lia. }
      apply IH. lia.
    + rewrite IH by (unfold MAX_CONSECUTIVE_EMPTY in *; lia).
      by rewrite <- app_assoc.
  - by apply IH.
Qed.

(** X14.  A table with fewer than ten rows with a blank first valid
    column loses nothing: the result holds the record of every row whose
    first valid column holds data. *)
Theorem few_blank_rows_lose_nothing (table : Table) :
  blank_rows (validCols (cols table)) (rows table) < 10 ->
  process_table table
  = omap (row_record (validCols (cols table))) (rows table).
Proof.
  unfold process_table, blank_rows.
  destruct (validCols (cols table)) as [|firstCol others]; simpl.
  - intros _. induction (rows table) as [|row rest IH]; [done|].
    cbn [omap list_omap]. unfold row_record at 1.
    by destruct (c row).
  - intros Hlt. by apply rows_loop_few_blanks.
Qed.

Lemma few_blank_rows_lose_nothing_witness :
  process_table {| cols := [ {| col_label := Some "A" |} ];
                   rows := [data_row; blank_row; data_row] |}
  = omap (row_record (validCols [ {| col_label := Some "A" |} ]))
      [data_row; blank_row; data_row].
Proof.
  apply (few_blank_rows_lose_nothing
           {| cols := [ {| col_label := Some "A" |} ];
              rows := [data_row; blank_row; data_row] |}).
  vm_compute. lia.
Defined.

(** ** Appending rows *)

(** X15.  Rows added at the end of a table leave the records of the rows
    before them as they were: the old result is a prefix of the new one. *)
Theorem more_rows_only_add (table_cols : list Col) (rows1 rows2 : list Row) :
  process_table {| cols := table_cols; rows := rows1 |}
  `prefix_of` process_table {| cols := table_cols; rows := rows1 ++ rows2 |}.
Proof.
  unfold process_table. simpl. destruct (length _ =? 0); [done|].
  generalize 0 ([] : list (gmap string value)).
  induction rows1 as [|row rest IH]; intros n results.
  - simpl. rewrite rows_loop_acc. by apply prefix_app_r.
  - cbn [rows_loop app].
    destruct (row_step _ row n results); [apply IH|done].
Qed.

(** ** The keys of a record *)

Lemma set_property_is_Some {V} (k k' : string) (x : V) (obj : gmap string V) :
  is_Some (obj !! k') -> is_Some (set_property k x obj !! k').
Proof.
  intros H. unfold set_property. destruct (String.eqb k _); [done|].
  rewrite lookup_insert_is_Some. destruct (decide (k = k')); [by left|by right].
Qed.

Lemma foldl_col_step_is_Some (cells : list (option Cell)) (k : string)
    (todo : list ValidCol) :
  forall obj, is_Some (obj !! k) -> is_Some (foldl (col_step cells) obj todo !! k).
Proof.
  induction todo as [|col todo IH]; intros obj H; simpl; [done|].
  apply IH. unfold col_step. destruct (negb _); [|done].
  by apply set_property_is_Some.
Qed.

(** X16.  Every record holds the key of the first valid column, and so
    is not empty, unless that key is the name __proto__. *)
Theorem first_column_key_present (table : Table) (firstCol : ValidCol)
    (others : list ValidCol) (obj : gmap string value) :
  validCols (cols table) = firstCol :: others ->
  property_key (label firstCol) <> "__proto__" ->
  obj ∈ process_table table ->
  is_Some (obj !! property_key (label firstCol)) /\ obj <> ∅.
Proof.
  intros Hv Hproto Hin.
  destruct (process_table_take table) as [k Hk]. rewrite Hk, Hv in Hin.
  apply list_elem_of_omap in Hin as (row & _ & Hrec).
  assert (Hsome : is_Some (obj !! property_key (label firstCol))).
  { unfold row_record in Hrec. destruct (c row) as [cells|]; [|done].
    destruct (is_blank _) eqn:Eb; [done|]. injection Hrec as <-.
    unfold build_obj. cbn [foldl]. apply foldl_col_step_is_Some.
    unfold col_step. rewrite Eb. simpl.
    rewrite CsvMore.set_property_lookup_eq by done. by eexists. }
  split; [done|]. intros ->. rewrite lookup_empty in Hsome. by destruct Hsome.
Qed.

Lemma first_column_key_present_witness :
  is_Some (({[ "A" := Str "x" ]} : gmap string value) !! "A")
  /\ ({[ "A" := Str "x" ]} : gmap string value) <> ∅.
Proof.
  apply (first_column_key_present
           {| cols := [ {| col_label := Some "A" |} ]; rows := [data_row] |}
           {| label := Some "A"; index := 0 |} []).
  - reflexivity.
  - discriminate.
  - apply list_elem_of_In. left. reflexivity.
Defined.





(** ** The outcome of one fetch *)

Section FetchFacts.
Variable fetch : string -> Exc Response.
Variable encodeURIComponent : string -> string.
Variable match_wrapper : string -> option string.
Variable JSON_parse_table : string -> Exc Table.

#[local] Abbreviation fetchSheetData :=
  (fetchSheetData fetch encodeURIComponent match_wrapper JSON_parse_table).

End FetchFacts.

End GvizMore.
(* ===================================================================== *)
(** * More on the first JSON variant                                      *)
(* ===================================================================== *)

Module LegacyMore.
Import Js Sheet Legacy.

(** The record of a cell array. *)
Lemma foldl_cell_step_snoc (hs : list string) (cells : list (option Cell))
    (cell : option Cell) :
  foldl (cell_step hs) ∅ (imap pair (cells ++ [cell]))
  = cell_step hs (foldl (cell_step hs) ∅ (imap pair cells)) (length cells, cell).
Proof.
  rewrite imap_app, foldl_app. simpl. by rewrite Nat.add_0_r.
Qed.

Lemma nullish_coalesce_Str (x : value) (s : string) :
  nullish (coalesce x (Str s)) = false.
Proof. by destruct x. Qed.

Lemma row_record_entries (hs : list string) (cells : list (option Cell)) :
  forall k x,
    foldl (cell_step hs) ∅ (imap pair cells) !! k = Some x ->
    nullish x = false /\ k <> EmptyString
    /\ exists i cell, hs !! i = Some k /\ cells !! i = Some cell
                      /\ x = coalesce (opt_v cell) (Str EmptyString).
Proof.
  induction cells as [|cell cells IH] using rev_ind; intros k x.
  { simpl. by rewrite lookup_empty. }
  rewrite foldl_cell_step_snoc. unfold cell_step at 1. simpl.
  assert (Hold : foldl (cell_step hs) ∅ (imap pair cells) !! k = Some x ->
            nullish x = false /\ k <> EmptyString
            /\ exists i cell0, hs !! i = Some k /\ (cells ++ [cell]) !! i = Some cell0
                               /\ x = coalesce (opt_v cell0) (Str EmptyString)).
  { intros H. destruct (IH k x H) as (Hn & Hk & i & cell0 & Hi & Hc & Hx).
    split; [done|]. split; [done|]. exists i, cell0.
    split; [done|]. split; [|done]. by apply lookup_app_l_Some. }
  destruct (hs !! length cells) as [header|] eqn:Hh; [|done].
  destruct (truthy header) eqn:Ht; [|done].
  unfold set_property. destruct (String.eqb header _); [done|].
  destruct (decide (header = k)) as [<-|Hne].
  - rewrite lookup_insert_eq. intros [= <-].
    split; [apply nullish_coalesce_Str|]. split; [by destruct header|].
    exists (length cells), cell. split; [done|]. split; [|done].
    by rewrite list_lookup_middle.
  - by rewrite lookup_insert_ne.
Qed.

Lemma row_record_keys (hs : list string) (cells : list (option Cell))
    (i : nat) (k : string) :
  hs !! i = Some k -> i < length cells ->
  k <> EmptyString -> k <> "__proto__" ->
  is_Some (foldl (cell_step hs) ∅ (imap pair cells) !! k).
Proof.
  intros Hi Hlt Hk Hproto. revert Hlt.
  induction cells as [|cell cells IH] using rev_ind; intros Hlt; [simpl in Hlt; lia|].
  rewrite foldl_cell_step_snoc. rewrite length_app in Hlt. simpl in Hlt.
  unfold cell_step at 1. simpl.
  destruct (decide (i = length cells)) as [->|Hne].
  - rewrite Hi. replace (truthy k) with true by (by destruct k).
    rewrite CsvMore.set_property_lookup_eq by done. by eexists.
  - assert (Hsome : is_Some (foldl (cell_step hs) ∅ (imap pair cells) !! k))
      by (apply IH; lia).
    destruct (hs !! length cells) as [header|]; [|done].
    destruct (truthy header); [|done].
    by apply GvizMore.set_property_is_Some.
Qed.

(** X19.  In the first JSON variant the record of a row holds, under each
    label that is neither empty nor __proto__ and whose position is within
    the cell array, the raw value of the cell, or the empty string when
    the raw value is null or absent; no value is null or undefined, and
    no key is the empty string. *)
Theorem legacy_record_entries (hs : list string) (cells : list (option Cell)) :
  let obj := foldl (cell_step hs) ∅ (imap pair cells) in
  (forall k x, obj !! k = Some x ->
     nullish x = false /\ k <> EmptyString
     /\ exists i cell, hs !! i = Some k /\ cells !! i = Some cell
                       /\ x = coalesce (opt_v cell) (Str EmptyString))
  /\ (forall i k, hs !! i = Some k -> i < length cells ->
        k <> EmptyString -> k <> "__proto__" -> is_Some (obj !! k)).
Proof.
  split; [apply row_record_entries|apply row_record_keys].
Qed.

Lemma legacy_record_entries_witness :
  is_Some (foldl (cell_step ["A"; ""; "B"]) ∅
             (imap pair [None; None; Some {| v := Num 3; f := Undefined |}]) !! "B").
Proof.
  apply (proj2 (legacy_record_entries ["A"; ""; "B"]
                  [None; None; Some {| v := Num 3; f := Undefined |}]) 2 "B");
    first [reflexivity | discriminate | (simpl; lia)].
Defined.

(** ** When the variant throws *)

Lemma map_rows_throws (hs : list string) (table_rows : list Row) (row : Row) :
  row ∈ table_rows -> c row = None -> map_rows hs table_rows = Throw TypeError.
Proof.
  intros Hin Hc. induction table_rows as [|row' rest IH]; [by apply elem_of_nil in Hin|].
  cbn [map_rows]. unfold row_obj.
  destruct (c row') as [cells|] eqn:Hc'; [|done]. simpl.
  apply elem_of_cons in Hin as [->|Hin]; [congruence|].
  by rewrite (IH Hin).
Qed.

Lemma map_rows_returns (hs : list string) (table_rows : list Row) :
  Forall (fun row => is_Some (c row)) table_rows ->
  exists records,
    map_rows hs table_rows = Ret records
    /\ Forall2 (fun row obj =>
                  exists cells, c row = Some cells
                    /\ obj = foldl (cell_step hs) ∅ (imap pair cells))
               table_rows records.
Proof.
  induction table_rows as [|row rest IH]; intros Hall.
  { exists []. split; [done|constructor]. }
  inversion Hall as [|? ? [cells Hc] Hall']; subst.
  destruct (IH Hall') as (records & Hrec & Hf2).
  exists (foldl (cell_step hs) ∅ (imap pair cells) :: records). split.
  - cbn [map_rows]. unfold row_obj. rewrite Hc. simpl. by rewrite Hrec.
  - constructor; [by exists cells|done].
Qed.

(** X20.  The first JSON variant throws a TypeError when a row has no
    cell array, and otherwise returns one record for every row, in the
    order of the rows. *)
Theorem legacy_throws_on_row_without_cells (table : Table) :
  (forall row, row ∈ rows table -> c row = None ->
     process_table table = Throw TypeError)
  /\ (Forall (fun row => is_Some (c row)) (rows table) ->
      exists records,
        process_table table = Ret records
        /\ Forall2 (fun row obj =>
                      exists cells, c row = Some cells
                        /\ obj = foldl (cell_step (headers (cols table))) ∅
                                   (imap pair cells))
                   (rows table) records).
Proof.
  split.
  - intros row. apply map_rows_throws.
  - apply map_rows_returns.
Qed.

Lemma legacy_throws_on_row_without_cells_witness :
  process_table {| cols := [ {| col_label := Some "A" |} ];
                   rows := [ Gviz.data_row; {| c := None |} ] |}
  = Throw TypeError.
Proof.
  apply (proj1 (legacy_throws_on_row_without_cells
                  {| cols := [ {| col_label := Some "A" |} ];
                     rows := [ Gviz.data_row; {| c := None |} ] |})
           {| c := None |}).
  - apply list_elem_of_further, list_elem_of_here.
  - reflexivity.
Defined.

End LegacyMore.
(* ===================================================================== *)
(** * More on the assembler and on the fetch wrappers                     *)
(* ===================================================================== *)

Module AssemblerMore.
Import Js Sheet Assembler AssemblerFacts.

(** ** Promise.all *)

Lemma Promise_all_of_results {A} (results : list A) :
  Promise_all (Ret <$> results) = Ret results.
Proof.
  induction results as [|a results IH]; [done|].
  rewrite fmap_cons. cbn [Promise_all]. by rewrite IH.
Qed.

Lemma Promise_all_error {A} (promises : list (Exc A)) (e : Error) :
  Promise_all promises = Throw e -> Throw e ∈ promises.
Proof.
  induction promises as [|p rest IH]; [done|]. cbn [Promise_all].
  destruct p as [e0|a]; [intros [= ->]; apply list_elem_of_here|].
  destruct (Promise_all rest) as [e1|others]; [|done].
  intros [= ->]. by apply list_elem_of_further, IH.
Qed.

(** X21.  Promise.all gives the array of the results, in the order of the
    promises, exactly when every promise is fulfilled; the error of a
    rejected Promise.all is the error of one of the promises. *)
Theorem Promise_all_fulfilled_iff {A} (promises : list (Exc A)) :
  (forall results, Promise_all promises = Ret results <-> promises = Ret <$> results)
  /\ (forall e, Promise_all promises = Throw e -> Throw e ∈ promises).
Proof.
  split; [|apply Promise_all_error].
  intros results. split.
  - intros H%Promise_all_fulfilled.
    induction H as [|p a ps rs -> _ IH]; [done|]. by rewrite fmap_cons, IH.
  - intros ->. apply Promise_all_of_results.
Qed.

Lemma Forall2_elem_l {A B} (P : A -> B -> Prop) (l : list A) (k : list B) (x : A) :
  Forall2 P l k -> x ∈ l -> exists y, P x y.
Proof.
  induction 1 as [|a b l k Hab _ IH]; intros Hin; [by apply elem_of_nil in Hin|].
  apply elem_of_cons in Hin as [->|Hin]; [by exists b|by apply IH].
Qed.

Section MainMore.
Variable encodeURIComponent : string -> string.
Variable match_wrapper : string -> option string.
Variable JSON_parse_table : string -> Exc Table.

#[local] Abbreviation fetchSheetData :=
  (fetchSheetData encodeURIComponent match_wrapper JSON_parse_table).
#[local] Abbreviation main :=
  (main encodeURIComponent match_wrapper JSON_parse_table).

(** The seven fetches succeed. *)
Lemma Promise_all_sheets (w : World) (SHEET_ID : string) :
  (forall sheetName, sheetName ∈ SHEET_NAMES ->
     exists data, fetchSheetData w SHEET_ID sheetName = Ret data) ->
  exists sheetsData,
    Promise_all (fetchSheetData w SHEET_ID <$> SHEET_NAMES) = Ret sheetsData
    /\ length sheetsData = length SHEET_NAMES.
Proof.
  generalize SHEET_NAMES. intros names.
  induction names as [|name names IH]; intros Hall.
  { by exists []. }
  destruct (Hall name) as [data Hdata]; [apply list_elem_of_here|].
  destruct IH as (sheetsData & Hrest & Hlen).
  { intros sheetName Hin. apply Hall. by apply list_elem_of_further. }
  exists (data :: sheetsData). rewrite fmap_cons. cbn [Promise_all].
  rewrite Hdata, Hrest. simpl. by rewrite Hlen.
Qed.

Lemma write_snapshot_returns (w : World) (SHEET_ID : string)
    (sheetsData : list (list (gmap string value))) :
  length sheetsData = length SHEET_NAMES ->
  existsSync w (path_join (cwd w) "public") = true \/ mkdirSync_fails w = false ->
  writeFileSync_fails w = false ->
  (write_snapshot w SHEET_ID sheetsData).2 = Ret tt.
Proof.
  intros Hlen Hdir Hw. unfold write_snapshot. rewrite Hw.
  assert (Hlog : (_ ← defined (sheetsData !! 0);
                  log_sizes sheetsData (seq 0 (length SHEET_NAMES))) = Ret tt).
  { destruct sheetsData as [|d0 rest]; [done|].
    rewrite (CsvFacts.bind_defined _ d0) by done.
    apply log_sizes_returns. apply Forall_forall. intros i Hi%elem_of_seq. lia. }
  destruct Hdir as [Hex|Hm].
  - rewrite Hex. cbn [negb andb snd]. exact Hlog.
  - rewrite Hm, andb_false_r. cbn [snd]. exact Hlog.
Qed.

(** X22.  A run ends with status 0 exactly when the sheet identifier is
    set and not empty, each of the seven fetches returns, the output
    directory exists or can be made, and the file can be written. *)
Theorem main_succeeds_iff (w : World) :
  exitCode (main w) = 0%Z
  <-> exists SHEET_ID,
        GOOGLE_SHEET_ID w = Some SHEET_ID /\ SHEET_ID <> EmptyString
        /\ (forall sheetName, sheetName ∈ SHEET_NAMES ->
              exists data, fetchSheetData w SHEET_ID sheetName = Ret data)
        /\ (existsSync w (path_join (cwd w) "public") = true
            \/ mkdirSync_fails w = false)
        /\ writeFileSync_fails w = false.
Proof.
  unfold Assembler.main. split.
  - destruct (GOOGLE_SHEET_ID w) as [SHEET_ID|]; [|done].
    destruct (truthy SHEET_ID) eqn:Ht; [|done]. cbn [negb].
    destruct (Promise_all _) as [e|sheetsData] eqn:Hall; [done|].
    apply Promise_all_fulfilled, Forall2_fmap_l in Hall.
    unfold write_snapshot.
    destruct (existsSync w _) eqn:Hex; simpl.
    + destruct (writeFileSync_fails w) eqn:Hw; [done|]. intros _.
      exists SHEET_ID. split; [done|]. split; [by destruct SHEET_ID|].
      split; [|by split; [left|]].
      intros sheetName Hin. by apply (Forall2_elem_l _ _ _ _ Hall).
    + destruct (mkdirSync_fails w) eqn:Hm; [done|].
      destruct (writeFileSync_fails w) eqn:Hw; [done|]. intros _.
      exists SHEET_ID. split; [done|]. split; [by destruct SHEET_ID|].
      split; [|by split; [right|]].
      intros sheetName Hin. by apply (Forall2_elem_l _ _ _ _ Hall).
  - intros (SHEET_ID & -> & Hne & Hall & Hdir & Hw).
    replace (truthy SHEET_ID) with true by (by destruct SHEET_ID). cbn [negb].
    destruct (Promise_all_sheets w SHEET_ID Hall) as (sheetsData & -> & Hlen).
    pose proof (write_snapshot_returns w SHEET_ID sheetsData Hlen Hdir Hw) as Hr.
    destruct (write_snapshot _ _ _) as [made [e|[]]]; simpl in Hr; done.
Qed.

(** X23.  In a run that succeeds, the one file written holds the result
    of the fetch of each sheet under the key of its position in the list
    of sheet names, the sheet identifier, the time stamp and the label of
    the quarter. *)
Theorem snapshot_is_positional (w : World) (SHEET_ID : string)
    (d0 d1 d2 d3 d4 d5 d6 : list (gmap string value)) :
  GOOGLE_SHEET_ID w = Some SHEET_ID -> SHEET_ID <> EmptyString ->
  fetchSheetData w SHEET_ID "Locations Metadata" = Ret d0 ->
  fetchSheetData w SHEET_ID "Yearly Funding Data" = Ret d1 ->
  fetchSheetData w SHEET_ID "Quarterly Funding Data" = Ret d2 ->
  fetchSheetData w SHEET_ID "Yearly Enterprise Value" = Ret d3 ->
  fetchSheetData w SHEET_ID "Top Industries, Tags, Rounds" = Ret d4 ->
  fetchSheetData w SHEET_ID "Top Rounds" = Ret d5 ->
  fetchSheetData w SHEET_ID "Regional Comparison" = Ret d6 ->
  existsSync w (path_join (cwd w) "public") = true \/ mkdirSync_fails w = false ->
  writeFileSync_fails w = false ->
  exists output,
    writes (main w)
    = [WriteFileSync (path_join (path_join (cwd w) "public") "report-data.json") output]
    /\ sheets output
       = {| locations := Some d0; yearly_funding := Some d1;
            quarterly_funding := Some d2; yearly_ev := Some d3;
            top_industries_tags := Some d4; top_rounds := Some d5;
            regional_comparison := Some d6 |}
    /\ source_sheet_id (meta output) = SHEET_ID
    /\ generated_at (meta output) = toISOString (now w)
    /\ reporting_quarter (meta output) = reportingQuarter (now w).
Proof.
  intros Hid Hne H0 H1 H2 H3 H4 H5 H6 Hdir Hw.
  exists (build_output SHEET_ID (now w) [d0; d1; d2; d3; d4; d5; d6]).
  split; [|done].
  unfold writes, Assembler.main. rewrite Hid.
  replace (truthy SHEET_ID) with true by (by destruct SHEET_ID). cbn [negb].
  unfold SHEET_NAMES. rewrite !fmap_cons, fmap_nil.
  rewrite H0, H1, H2, H3, H4, H5, H6. cbn [Promise_all].
  pose proof (write_snapshot_returns w SHEET_ID [d0; d1; d2; d3; d4; d5; d6]
                eq_refl Hdir Hw) as Hr.
  destruct (write_snapshot_cases w SHEET_ID [d0; d1; d2; d3; d4; d5; d6] eq_refl)
    as [[_ Hwr]|[Hthrow _]]; [|congruence].
  destruct (write_snapshot _ _ _) as [made [e|[]]]; simpl in Hr, Hwr |- *; done.
Qed.

(** X24.  The output directory is made only when it does not exist, at
    most once and before the write; a run leaves no effect and status 1,
    or the new directory alone and status 1 when the write fails, or the
    write, after the directory when it was missing, and status 0. *)
Theorem directory_made_before_write (w : World) :
  let publicDir := path_join (cwd w) "public" in
  let outputPath := path_join publicDir "report-data.json" in
  (effects (main w) = [] /\ exitCode (main w) = 1%Z)
  \/ (existsSync w publicDir = false /\ writeFileSync_fails w = true
      /\ effects (main w) = [MkdirSync publicDir] /\ exitCode (main w) = 1%Z)
  \/ (exists output,
        effects (main w)
        = (if existsSync w publicDir then [] else [MkdirSync publicDir])
          ++ [WriteFileSync outputPath output]
        /\ exitCode (main w) = 0%Z).
Proof.
  intros publicDir outputPath. unfold Assembler.main.
  destruct (GOOGLE_SHEET_ID w) as [SHEET_ID|]; [|by left].
  destruct (negb (truthy SHEET_ID)); [by left|].
  destruct (Promise_all _) as [e|sheetsData] eqn:Hall; [by left|].
  apply Promise_all_fulfilled, Forall2_fmap_l, Forall2_length in Hall.
  assert (Hlog : (_ ← defined (sheetsData !! 0);
                  log_sizes sheetsData (seq 0 (length SHEET_NAMES))) = Ret tt).
  { destruct sheetsData as [|d0 rest]; [done|].
    rewrite (CsvFacts.bind_defined _ d0) by done.
    apply log_sizes_returns. apply Forall_forall. intros i Hi%elem_of_seq. lia. }
  unfold write_snapshot. fold publicDir. fold outputPath. rewrite Hlog.
  destruct (existsSync w publicDir); cbn [negb andb].
  - destruct (writeFileSync_fails w); [by left|].
    right; right. by eexists.
  - destruct (mkdirSync_fails w); [by left|].
    destruct (writeFileSync_fails w); [by right; left|].
    right; right. by eexists.
Qed.

End MainMore.

Lemma main_succeeds_iff_witness :
  exitCode (main (fun s => s) (fun _ => Some "{}") (fun _ => Ret AssemblerAux.sample_table)
              AssemblerAux.working_world) = 0%Z.
Proof.
  apply (proj2 (main_succeeds_iff (fun s => s) (fun _ => Some "{}")
                  (fun _ => Ret AssemblerAux.sample_table)
                  AssemblerAux.working_world)).
  exists "sheet". split; [reflexivity|]. split; [discriminate|].
  split; [|split; [by right|reflexivity]].
  intros sheetName _. eexists. reflexivity.
Defined.

Lemma snapshot_is_positional_witness :
  exists output,
    writes (main (fun s => s) (fun _ => Some "{}")
              (fun _ => Ret AssemblerAux.sample_table) AssemblerAux.working_world)
    = [WriteFileSync "/app/public/report-data.json" output]
    /\ locations (sheets output) = Some [ {[ "A" := Str "x" ]} ].
Proof.
  destruct (snapshot_is_positional (fun s => s) (fun _ => Some "{}")
              (fun _ => Ret AssemblerAux.sample_table) AssemblerAux.working_world
              "sheet"
              [ {[ "A" := Str "x" ]} ] [ {[ "A" := Str "x" ]} ] [ {[ "A" := Str "x" ]} ]
              [ {[ "A" := Str "x" ]} ] [ {[ "A" := Str "x" ]} ] [ {[ "A" := Str "x" ]} ]
              [ {[ "A" := Str "x" ]} ]
              eq_refl ltac:(discriminate) eq_refl eq_refl eq_refl eq_refl eq_refl
              eq_refl eq_refl ltac:(by right) eq_refl)
    as (output & Hw & Hs & _).
  exists output. split; [exact Hw|]. by rewrite Hs.
Defined.

End AssemblerMore.

(* ===================================================================== *)
(** * The fetch wrappers of the two earlier scripts                       *)
(* ===================================================================== *)

Module ScriptsMore.
Import Js Sheet.

Section CsvFetch.
Variable fetch : string -> Exc Gviz.Response.
Variable encodeURIComponent : string -> string.

(** X25.  The fetch of the CSV script fails only in transport: a
    response that is a success always gives the records parseCSV returns
    for its text, and an error is the rejection of the network call or
    the error that names the sheet and the status text. *)
Theorem csv_fetch_fails_only_in_transport (SHEET_ID sheetName : string) :
  let url := CsvScript.sheet_url encodeURIComponent SHEET_ID sheetName in
  (forall response,
     fetch url = Ret response -> Gviz.ok response = true ->
     exists records,
       CsvScript.fetchSheetData fetch encodeURIComponent SHEET_ID sheetName
       = Ret records
       /\ Csv.parseCSV (Gviz.text response) = Ret records)
  /\ (forall e,
        CsvScript.fetchSheetData fetch encodeURIComponent SHEET_ID sheetName
        = Throw e ->
        fetch url = Throw e
        \/ exists response,
             fetch url = Ret response /\ Gviz.ok response = false
             /\ e = FetchFailed sheetName (Gviz.statusText response)).
Proof.
  intros url. unfold CsvScript.fetchSheetData. fold url. split.
  - intros response -> Hok. simpl. rewrite Hok. simpl.
    rewrite CsvMore.parseCSV_omap. by eexists.
  - intros e. destruct (fetch url) as [e0|response]; simpl.
    + intros [= ->]. by left.
    + destruct (Gviz.ok response) eqn:Hok; simpl.
      * by rewrite CsvMore.parseCSV_omap.
      * intros [= <-]. right. by exists response.
Qed.
End CsvFetch.

Section LegacyFetch.
Variable fetch : string -> Exc Gviz.Response.
Variable encodeURIComponent : string -> string.
Variable match_wrapper : string -> option string.
Variable JSON_parse_table : string -> Exc Table.

(** X26.  For one parsed response, the current script returns the
    extraction of the table, while the first JSON script throws a
    TypeError when a row has no cell array and otherwise returns as many
    records as the table has rows. *)
Theorem legacy_fetch_needs_cells (SHEET_ID sheetName : string)
    (response : Gviz.Response) (jsonMatch1 : string) (table : Table) :
  fetch (Gviz.sheet_url encodeURIComponent SHEET_ID sheetName) = Ret response ->
  Gviz.ok response = true ->
  match_wrapper (Gviz.text response) = Some jsonMatch1 ->
  JSON_parse_table jsonMatch1 = Ret table ->
  Gviz.fetchSheetData fetch encodeURIComponent match_wrapper JSON_parse_table
    SHEET_ID sheetName = Ret (Gviz.process_table table)
  /\ ((exists row, row ∈ rows table /\ c row = None) ->
      LegacyScript.fetchSheetData fetch encodeURIComponent match_wrapper
        JSON_parse_table SHEET_ID sheetName = Throw TypeError)
  /\ (Forall (fun row => is_Some (c row)) (rows table) ->
      exists records,
        LegacyScript.fetchSheetData fetch encodeURIComponent match_wrapper
          JSON_parse_table SHEET_ID sheetName = Ret records
        /\ length records = length (rows table)).
Proof.
  intros Hf Hok Hm Hp.
  unfold Gviz.fetchSheetData, LegacyScript.fetchSheetData.
  rewrite Hf. simpl. rewrite Hok, Hm, Hp. simpl. split; [done|]. split.
  - intros (row & Hin & Hc). by apply (LegacyMore.map_rows_throws _ _ row).
  - intros Hall.
    destruct (LegacyMore.map_rows_returns (Legacy.headers (cols table))
                (rows table) Hall) as (records & Hrec & Hf2).
    exists records. split; [done|]. symmetry. by apply Forall2_length in Hf2.
Qed.
End LegacyFetch.

Lemma legacy_fetch_needs_cells_witness :
  LegacyScript.fetchSheetData
    (fun _ => Ret {| Gviz.ok := true; Gviz.statusText := "OK"; Gviz.text := "payload" |})
    (fun s => s) (fun _ => Some "{}")
    (fun _ => Ret {| cols := [ {| col_label := Some "A" |} ]; rows := [ {| c := None |} ] |})
    "sheet" "Top Rounds"
  = Throw TypeError.
Proof.
  apply (legacy_fetch_needs_cells
           (fun _ => Ret {| Gviz.ok := true; Gviz.statusText := "OK"; Gviz.text := "payload" |})
           (fun s => s) (fun _ => Some "{}")
           (fun _ => Ret {| cols := [ {| col_label := Some "A" |} ];
                            rows := [ {| c := None |} ] |})
           "sheet" "Top Rounds" _ "{}" _ eq_refl eq_refl eq_refl eq_refl).
  exists {| c := None |}. split; [apply list_elem_of_here|reflexivity].
Defined.

Lemma csv_fetch_fails_only_in_transport_witness :
  exists records,
    CsvScript.fetchSheetData
      (fun _ => Ret {| Gviz.ok := true; Gviz.statusText := "OK";
                       Gviz.text := "Name,Value" |})
      (fun s => s) "sheet" "Top Rounds" = Ret records
    /\ Csv.parseCSV "Name,Value" = Ret records.
Proof.
  apply (proj1 (csv_fetch_fails_only_in_transport
                  (fun _ => Ret {| Gviz.ok := true; Gviz.statusText := "OK";
                                   Gviz.text := "Name,Value" |})
                  (fun s => s) "sheet" "Top Rounds")
           _ eq_refl eq_refl).
Defined.

End ScriptsMore.
